(** * Token-bounded chunking and overlap-aware merging (pdf_to_txt.py)

    A shallow embedding of the text pipeline of [PDFTextExtractor]:
    [remove_references_section], [split_text_into_chunks],
    [clean_text_chunk_with_llm], [merge_chunks_with_overlap] and the
    part of [extract_text_from_pdf] that runs after the PDF has been read.

    A Python [str] is a sequence of Unicode code points, so a string is a
    list of code points here.  The tokenizer ([self.encoding.encode]) and
    the chat completion call are external: the first is a function
    [count : str -> nat], the second a function [llm : str -> option str]
    whose [None] stands for any exception raised inside the [try] block. *)

From Stdlib Require Import String Ascii.
From Stdlib Require Import List NArith ZArith Lia Bool.
Import ListNotations.

(** ** Python strings *)

Definition char := N.
Definition str := list char.

(** An ASCII literal as a Python string. *)
Definition str_of (s : string) : str :=
  map N_of_ascii (list_ascii_of_string s).

Arguments str_of s%_string.

Definition NL : char := 10%N.

Definition char_eqb (a b : char) : bool := N.eqb a b.

Fixpoint str_eqb (a b : str) : bool :=
  match a, b with
  | [], [] => true
  | x :: a', y :: b' => char_eqb x y && str_eqb a' b'
  | _, _ => false
  end.

(** [if s:] on a string: true when [s] is not empty. *)
Definition truthy (s : str) : bool :=
  match s with
  | [] => false
  | _ :: _ => true
  end.

(** [str.isspace] on one code point: the characters [str.strip()] removes. *)
Definition isspace (c : char) : bool :=
  ((9 <=? c) && (c <=? 13) || (28 <=? c) && (c <=? 32) ||
   (c =? 133) || (c =? 160) || (c =? 5760) ||
   (8192 <=? c) && (c <=? 8202) ||
   (c =? 8232) || (c =? 8233) || (c =? 8239) || (c =? 8287) ||
   (c =? 12288))%N.

Fixpoint lstrip (s : str) : str :=
  match s with
  | [] => []
  | c :: rest => if isspace c then lstrip rest else s
  end.

Definition rstrip (s : str) : str := rev (lstrip (rev s)).

(** [s.strip()] *)
Definition strip (s : str) : str := rstrip (lstrip s).

(** [not s.strip()] *)
Definition is_blank (s : str) : bool := negb (truthy (strip s)).

(** [s[-n:]] for [n >= 1]: the last [n] characters, the whole string when
    it is shorter. *)
Definition last_chars (n : nat) (s : str) : str :=
  skipn (length s - n) s.

(** Prepend a character to the first piece of a split. *)
Definition cons_first (c : char) (pieces : list str) : list str :=
  match pieces with
  | [] => [[c]]
  | p :: ps => (c :: p) :: ps
  end.

(** [text.split('\n\n')]: cut at each occurrence of two line feeds,
    scanning from the left, occurrences not overlapping. *)
Fixpoint split_nlnl (s : str) : list str :=
  match s with
  | [] => [[]]
  | c :: rest =>
      match rest with
      | c2 :: rest2 =>
          if char_eqb c NL && char_eqb c2 NL
          then [] :: split_nlnl rest2
          else cons_first c (split_nlnl rest)
      | [] => cons_first c (split_nlnl rest)
      end
  end.

(** ** [merge_chunks_with_overlap] *)

(** What the merge loop prints for block [i+1]. *)
Inductive merge_event : Type :=
| OverlapFound (block : nat) (chars : nat)
| Concatenated (block : nat).

(** [for check_len in range(max_check_len, 0, -1)] with its [break]:
    the first [check_len], counting down, at which the last [check_len]
    characters of [result] equal the first [check_len] of the chunk. *)
Fixpoint find_overlap (check_len : nat) (result current_chunk : str)
  : option nat :=
  match check_len with
  | O => None
  | S k =>
      if str_eqb (last_chars check_len result) (firstn check_len current_chunk)
      then Some check_len
      else find_overlap k result current_chunk
  end.

(** [min(overlap_chars, len(result), len(current_chunk))]; a bound that
    is not positive leaves the range empty. *)
Definition max_check_len (overlap_chars : Z) (result current_chunk : str)
  : nat :=
  Z.to_nat (Z.min overlap_chars
              (Z.min (Z.of_nat (length result))
                     (Z.of_nat (length current_chunk)))).

(** One iteration of the loop over [i]. *)
Definition merge_step (overlap_chars : Z) (chunks : list str)
  (st : str * list merge_event) (i : nat) : str * list merge_event :=
  let '(result, log) := st in
  let current_chunk := nth i chunks [] in
  match find_overlap (max_check_len overlap_chars result current_chunk)
          result current_chunk with
  | Some check_len =>
      (result ++ skipn check_len current_chunk,
       log ++ [OverlapFound (i + 1) check_len])
  | None => (result ++ current_chunk, log ++ [Concatenated (i + 1)])
  end.

Definition merge_chunks_with_overlap_log (chunks : list str)
  (overlap_chars : Z) : str * list merge_event :=
  match chunks with
  | [] => ([], [])
  | [c] => (c, [])
  | c0 :: _ =>
      fold_left (merge_step overlap_chars chunks)
        (seq 1 (length chunks - 1)) (c0, [])
  end.

Definition merge_chunks_with_overlap (chunks : list str) (overlap_chars : Z)
  : str :=
  fst (merge_chunks_with_overlap_log chunks overlap_chars).

(** The text appended for one chunk, as a function of the accumulator. *)
Definition merge_one (overlap_chars : Z) (result current_chunk : str) : str :=
  match find_overlap (max_check_len overlap_chars result current_chunk)
          result current_chunk with
  | Some check_len => result ++ skipn check_len current_chunk
  | None => result ++ current_chunk
  end.

(** ** [remove_references_section] *)

(** Lower case of a code point, as far as the pattern needs it: the only
    code points whose lower case is one of the letters of the pattern are
    the ASCII capitals. *)
Definition lower (c : char) : char :=
  if ((65 <=? c) && (c <=? 90))%N then (c + 32)%N else c.

(** A literal letter [p] of a pattern compiled with [re.IGNORECASE]
    against a character [c] of the text: the lower cases agree, or [c] is
    the long s (U+017F), which the regex engine pairs with the letter s. *)
Definition matches_ignorecase (p c : char) : bool :=
  char_eqb (lower c) (lower p) ||
  (char_eqb (lower p) 115%N && char_eqb c 383%N).

(** The pattern matches at the start of [s]. *)
Fixpoint matches_here (pattern s : str) : bool :=
  match pattern, s with
  | [], _ => true
  | p :: pattern', c :: s' => matches_ignorecase p c && matches_here pattern' s'
  | _ :: _, [] => false
  end.

(** [re.search(pattern, s, re.IGNORECASE)]: the start of the leftmost
    match, [None] when there is none. *)
Fixpoint re_search (pattern s : str) : option nat :=
  match s with
  | [] => if matches_here pattern [] then Some 0 else None
  | _ :: rest =>
      if matches_here pattern s then Some 0
      else option_map S (re_search pattern rest)
  end.

Definition REFERENCES : str := str_of "REFERENCES".

Definition remove_references_section (text : str) : str :=
  match re_search REFERENCES text with
  | Some references_pos => firstn references_pos text
  | None => text
  end.

(** ** Sentences of an oversized paragraph *)

(** The character class of the sentence pattern: full stop, exclamation
    mark, question mark and the ideographic full stop (U+3002). *)
Definition is_terminal (c : char) : bool :=
  (c =? 46)%N || (c =? 33)%N || (c =? 63)%N || (c =? 12290)%N.

(** [re.split] with the class in a capturing group: the texts between
    the marks with each mark as an item of its own between them. *)
Fixpoint re_split_terminal (s : str) : list str :=
  match s with
  | [] => [[]]
  | c :: rest =>
      if is_terminal c
      then [] :: [c] :: re_split_terminal rest
      else cons_first c (re_split_terminal rest)
  end.

(** [l[0::2]]; [l[1::2]] is [every_other (tl l)]. *)
Fixpoint every_other {A : Type} (l : list A) : list A :=
  match l with
  | [] => []
  | x :: rest =>
      x :: match rest with
           | [] => []
           | _ :: rest' => every_other rest'
           end
  end.

(** [[''.join(i) for i in zip(sentences[0::2], sentences[1::2] + [''])]] *)
Definition split_sentences (paragraph : str) : list str :=
  let sentences := re_split_terminal paragraph in
  map (fun i => fst i ++ snd i)
    (combine (every_other sentences) (every_other (tl sentences) ++ [[]])).

(** ** [split_text_into_chunks] *)

Section Chunking.

(** [len(self.encoding.encode(text))] *)
Variable count : str -> nat.
Variable max_tokens : Z.

Definition within_budget (text : str) : bool :=
  (Z.of_nat (count text) <=? max_tokens)%Z.

(** The loop state: the chunks appended so far and [current_chunk]. *)
Definition chunk_state : Type := (list str * str)%type.

(** [if current_chunk: chunks.append(current_chunk)] *)
Definition flush (chunks : list str) (current_chunk : str) : list str :=
  if truthy current_chunk then chunks ++ [current_chunk] else chunks.

(** The body of [for sentence in sentences]. *)
Definition sentence_step (st : chunk_state) (sentence : str) : chunk_state :=
  let '(chunks, current_chunk) := st in
  if is_blank sentence then st
  else
    let test_chunk :=
      if truthy current_chunk then current_chunk ++ sentence else sentence in
    if within_budget test_chunk then (chunks, test_chunk)
    else (flush chunks current_chunk, sentence).

(** The body of [for paragraph in paragraphs]. *)
Definition paragraph_step (st : chunk_state) (paragraph : str)
  : chunk_state :=
  let '(chunks, current_chunk) := st in
  if is_blank paragraph then st
  else if negb (within_budget paragraph) then
    fold_left sentence_step (split_sentences paragraph)
      (flush chunks current_chunk, [])
  else
    let test_chunk :=
      if truthy current_chunk
      then current_chunk ++ [NL; NL] ++ paragraph
      else paragraph in
    if within_budget test_chunk then (chunks, test_chunk)
    else (flush chunks current_chunk, paragraph).

(** The loop over a sequence of paragraphs and the last flush: the
    Chunk Assembler. *)
Definition assemble (paragraphs : list str) : list str :=
  let '(chunks, current_chunk) :=
    fold_left paragraph_step paragraphs ([], []) in
  flush chunks current_chunk.

Definition split_text_into_chunks (text : str) : list str :=
  assemble (split_nlnl text).

End Chunking.

(** The paragraphs the loop does not skip: the Boundary Splitter. *)
Definition paragraphs_of (text : str) : list str :=
  filter (fun paragraph => negb (is_blank paragraph)) (split_nlnl text).

(** ** [clean_text_chunk_with_llm] and [extract_text_from_pdf] *)

Section Pipeline.

(** The chat completion for the prompt built from a chunk; [None] when
    anything in the [try] block raises. *)
Variable llm : str -> option str.
Variable count : str -> nat.

Definition clean_text_chunk_with_llm (chunk : str) : str :=
  match llm chunk with
  | Some cleaned_text => strip cleaned_text
  | None => chunk
  end.

(** Step 4: the cleaned chunks, and the chunks the model was called on. *)
Definition clean_chunks (chunks : list str) : list str * list str :=
  fold_left
    (fun (acc : list str * list str) chunk =>
       (fst acc ++ [clean_text_chunk_with_llm chunk], snd acc ++ [chunk]))
    chunks ([], []).

(** [extract_text_from_pdf] from the text [pdf_to_text] returned on:
    the final text and the chunks the model was called on. *)
Definition extract_text_from_pdf_log (raw_text : str) (max_tokens : Z)
  : str * list str :=
  if truthy raw_text then
    let processed_text := remove_references_section raw_text in
    let chunks := split_text_into_chunks count max_tokens processed_text in
    let '(cleaned_chunks, calls) := clean_chunks chunks in
    (merge_chunks_with_overlap cleaned_chunks 100, calls)
  else ([], []).

Definition extract_text_from_pdf (raw_text : str) (max_tokens : Z) : str :=
  fst (extract_text_from_pdf_log raw_text max_tokens).

End Pipeline.

(** ** Vocabulary of the statements *)

(** [s] occurs in [t] as a run of consecutive characters. *)
Definition occurs_in (s t : str) : Prop :=
  exists before after, t = before ++ s ++ after.

(** [s] can be read in [t] from left to right, skipping characters. *)
Fixpoint is_subsequence (s t : str) : bool :=
  match t with
  | [] => negb (truthy s)
  | y :: t' =>
      match s with
      | [] => true
      | x :: s' => if char_eqb x y then is_subsequence s' t'
                   else is_subsequence s t'
      end
  end.

(** The characters of a text that are not white space, in order. *)
Definition non_whitespace (s : str) : str :=
  filter (fun c => negb (isspace c)) s.

(** The text between pieces and the text itself: [sep.join(pieces)]. *)
Fixpoint join (sep : str) (pieces : list str) : str :=
  match pieces with
  | [] => []
  | [p] => p
  | p :: ps => p ++ sep ++ join sep ps
  end.

(** A segment the assembler packs: a paragraph within the budget, or a
    sentence of a paragraph over it. *)
Inductive segment : Type :=
| Paragraph (text : str)
| Sentence (text : str).

Definition segment_text (g : segment) : str :=
  match g with
  | Paragraph t => t
  | Sentence t => t
  end.

(** What the loop puts before a segment that joins a buffer that is not
    empty: a blank line before a paragraph, nothing before a sentence. *)
Definition separator (g : segment) : str :=
  match g with
  | Paragraph _ => [NL; NL]
  | Sentence _ => []
  end.

(** A chunk made of a run of segments. *)
Definition render (group : list segment) : str :=
  match group with
  | [] => []
  | g :: rest =>
      fold_left (fun buffer h => buffer ++ separator h ++ segment_text h)
        rest (segment_text g)
  end.

Section Segments.

Variable count : str -> nat.
Variable max_tokens : Z.

(** The segments of one paragraph that the loop packs. *)
Definition segments_of_paragraph (paragraph : str) : list segment :=
  if is_blank paragraph then []
  else if negb (within_budget count max_tokens paragraph) then
    map Sentence
      (filter (fun s => negb (is_blank s)) (split_sentences paragraph))
  else [Paragraph paragraph].

Definition segments_of (paragraphs : list str) : list segment :=
  flat_map segments_of_paragraph paragraphs.

(** The packing step both loops share, on a segment. *)
Definition segment_step (st : chunk_state) (g : segment) : chunk_state :=
  let '(chunks, current_chunk) := st in
  let test_chunk :=
    if truthy current_chunk
    then current_chunk ++ separator g ++ segment_text g
    else segment_text g in
  if within_budget count max_tokens test_chunk then (chunks, test_chunk)
  else (flush chunks current_chunk, segment_text g).

End Segments.

(** The state of the loop after the segments [segs]: the chunks are
    the closed groups, the buffer is the open one. *)
Definition grouped (segs : list segment) (st : chunk_state) : Prop :=
  exists groups open,
    fst st = map render groups /\
    Forall (fun group => group <> []) groups /\
    snd st = render open /\
    concat groups ++ open = segs.

(** A chunk the budget allows: it is within the budget, or it is one
    sentence, itself over the budget, of a paragraph over the budget. *)
Definition budget_ok (count : str -> nat) (max_tokens : Z)
  (paragraphs : list str) (chunk : str) : Prop :=
  within_budget count max_tokens chunk = true \/
  exists paragraph,
    In paragraph paragraphs /\
    is_blank paragraph = false /\
    within_budget count max_tokens paragraph = false /\
    In chunk (split_sentences paragraph) /\
    is_blank chunk = false /\
    within_budget count max_tokens chunk = false.

(** The loop keeps every chunk and the buffer within what the budget
    allows. *)
Definition budget_invariant (count : str -> nat) (max_tokens : Z)
  (paragraphs : list str) (st : chunk_state) : Prop :=
  Forall (budget_ok count max_tokens paragraphs) (fst st) /\
  (snd st = [] \/ budget_ok count max_tokens paragraphs (snd st)).

(** The sentence [s] is a chunk already or is the whole buffer. *)
Definition held (s : str) (st : chunk_state) : Prop :=
  In s (fst st) \/ snd st = s.

(** A tokenizer that counts more tokens in some texts than in longer
    ones: ten in a text of three or of nine characters, one in any
    other. *)
Definition uneven_count (s : str) : nat :=
  if Nat.eqb (length s) 3 || Nat.eqb (length s) 9 then 10 else 1.

(** A text with at most one sentence mark, at its end. *)
Definition single_sentence (p : str) : bool :=
  forallb (fun c => negb (is_terminal c)) (removelast p).

(** The Boundary Splitter as the specification words it: a boundary is a
    maximal run of two or more line feeds; the paragraphs that are empty
    after trimming are discarded. *)
Fixpoint spec_split_runs (in_boundary : bool) (s : str) : list str :=
  match s with
  | [] => [[]]
  | c :: rest =>
      if char_eqb c NL then
        if in_boundary then spec_split_runs true rest
        else
          match rest with
          | c2 :: _ =>
              if char_eqb c2 NL then [] :: spec_split_runs true rest
              else cons_first c (spec_split_runs false rest)
          | [] => cons_first c (spec_split_runs false rest)
          end
      else cons_first c (spec_split_runs false rest)
  end.

Definition spec_paragraphs (text : str) : list str :=
  filter (fun paragraph => negb (is_blank paragraph))
    (spec_split_runs false text).

(** [word] is the pattern up to the case of its letters, as the regex
    engine compares them. *)
Definition same_ignoring_case (pattern word : str) : Prop :=
  Forall2 (fun p c => matches_ignorecase p c = true) pattern word.

(** An occurrence of the pattern starts at index [i] of the text. *)
Definition occurs_at (pattern : str) (i : nat) (text : str) : Prop :=
  exists before word after,
    text = before ++ word ++ after /\
    length before = i /\
    same_ignoring_case pattern word.

(** Two line feeds in a row somewhere in the text. *)
Fixpoint contains_nlnl (s : str) : bool :=
  match s with
  | [] => false
  | c :: rest =>
      match rest with
      | c2 :: _ => char_eqb c NL && char_eqb c2 NL || contains_nlnl rest
      | [] => false
      end
  end.

(** The text ends with a line feed. *)
Definition ends_with_nl (s : str) : bool :=
  match rev s with
  | c :: _ => char_eqb c NL
  | [] => false
  end.

(** ** [_find_best_overlap] *)

(** [for overlap_size in range(max_overlap, 10, -1)] with its [break]:
    the sizes from [max_overlap] down to 11. *)
Fixpoint best_overlap_search (overlap_size : nat) (text1 text2 : str) : str :=
  match overlap_size with
  | O => []
  | S k =>
      if overlap_size <=? 10 then []
      else if str_eqb (last_chars overlap_size text1)
                (firstn overlap_size text2)
      then firstn overlap_size text2
      else best_overlap_search k text1 text2
  end.

Definition find_best_overlap (text1 text2 : str) : str :=
  best_overlap_search (min (length text1) (length text2)) text1 text2.

(** ** [pdf_to_text] *)

(** [pdf_to_text] on what the reader gives: the texts of the pages, or
    [None] when opening the file or reading a page raises. *)
Definition pdf_to_text (pages : option (list str)) : str :=
  match pages with
  | None => []
  | Some page_texts =>
      fold_left (fun text page => text ++ page ++ [NL]) page_texts []
  end.

(** ** File names in [process_folder] and [extract_text_from_pdf] *)

(** [s.startswith(prefix)] *)
Fixpoint starts_with (prefix s : str) : bool :=
  match prefix, s with
  | [], _ => true
  | p :: prefix', c :: s' => char_eqb p c && starts_with prefix' s'
  | _ :: _, [] => false
  end.

(** The scan of [s.replace(old, new)] for an [old] that is not empty:
    [skip] counts the characters of an occurrence still to pass over. *)
Fixpoint replace_from (old new : str) (skip : nat) (s : str) : str :=
  match s with
  | [] => []
  | c :: rest =>
      match skip with
      | S k => replace_from old new k rest
      | O =>
          if starts_with old s
          then new ++ replace_from old new (length old - 1) rest
          else c :: replace_from old new 0 rest
      end
  end.

(** [s.replace(old, new)]: every occurrence, leftmost first, none
    overlapping another; an empty [old] puts [new] around each character. *)
Definition str_replace (old new s : str) : str :=
  match old with
  | [] => new ++ flat_map (fun c => c :: new) s
  | _ :: _ => replace_from old new 0 s
  end.

(** [pdf_file.replace('.pdf', '.txt')] *)
Definition output_filename (pdf_file : str) : str :=
  str_replace (str_of ".pdf") (str_of ".txt") pdf_file.

(** [pdf_path.replace('.pdf', '_raw.txt')] *)
Definition raw_text_output_path (pdf_path : str) : str :=
  str_replace (str_of ".pdf") (str_of "_raw.txt") pdf_path.

(** ** [sanitize_filename] and [make_filename] (paper_renamer_gui.py) *)

(** The class of the pattern: backslash, slash, colon, asterisk, question
    mark, double quote, angle brackets and vertical bar. *)
Definition is_reserved (c : char) : bool :=
  ((c =? 92) || (c =? 47) || (c =? 58) || (c =? 42) || (c =? 63) ||
   (c =? 34) || (c =? 60) || (c =? 62) || (c =? 124))%N.

Definition UNDERSCORE : char := 95%N.

(** [re.sub(pattern, '_', s).strip()] *)
Definition sanitize_filename (s : str) : str :=
  strip (map (fun c => if is_reserved c then UNDERSCORE else c) s).

(** [make_filename], from the text [template.format(...)] gave on. *)
Definition make_filename (formatted : str) : str :=
  firstn 128 (sanitize_filename formatted).

(** ** The merge of [get_complete_metadata] (paper_renamer_gui.py) *)

(** A dictionary from strings to strings, as its items in order. *)
Definition dict : Type := list (str * str).

(** [d.get(k)] *)
Fixpoint dict_get (d : dict) (k : str) : option str :=
  match d with
  | [] => None
  | (k', v) :: d' => if str_eqb k' k then Some v else dict_get d' k
  end.

(** [k in d] *)
Definition dict_mem (d : dict) (k : str) : bool :=
  match dict_get d k with
  | Some _ => true
  | None => false
  end.

(** [d[k] = v] *)
Fixpoint dict_set (d : dict) (k v : str) : dict :=
  match d with
  | [] => [(k, v)]
  | (k', v') :: d' =>
      if str_eqb k' k then (k', v) :: d' else (k', v') :: dict_set d' k v
  end.

(** [d.update(other)] *)
Definition dict_update (d other : dict) : dict :=
  fold_left (fun r kv => dict_set r (fst kv) (snd kv)) other d.

(** [{k: v for k, v in src.items() if cond}] *)
Definition dict_comp (cond : str -> str -> bool) (src : dict) : dict :=
  filter (fun kv => cond (fst kv) (snd kv)) src.

(** No key twice: the items of a dictionary. *)
Definition valid_dict (d : dict) : Prop := NoDup (map fst d).

(** [not result.get(k)] *)
Definition get_is_falsy (d : dict) (k : str) : bool :=
  match dict_get d k with
  | Some v => negb (truthy v)
  | None => true
  end.

Definition FIELDS : list str :=
  [str_of "title"; str_of "author"; str_of "journal"; str_of "year";
   str_of "volume"; str_of "issue"; str_of "pages"; str_of "doi";
   str_of "issn"; str_of "publisher"; str_of "arxiv_id"].

(** [result.update({k: v for k, v in src.items() if v and k not in result})] *)
Definition fill_missing (result src : dict) : dict :=
  dict_update result
    (dict_comp (fun k v => truthy v && negb (dict_mem result k)) src).

(** [get_complete_metadata] from the five dictionaries it looked up on. *)
Definition get_complete_metadata
  (crossref_info arxiv_info bibtex_meta meta candidates : dict) : dict :=
  let result := [] in
  let result :=
    if negb (Nat.eqb (length crossref_info) 0)
    then dict_update result (dict_comp (fun _ v => truthy v) crossref_info)
    else result in
  let result :=
    if negb (Nat.eqb (length arxiv_info) 0)
       && get_is_falsy result (str_of "title")
    then fill_missing result arxiv_info
    else result in
  let result := fill_missing result bibtex_meta in
  let result := fill_missing result meta in
  let result := fill_missing result candidates in
  fold_left
    (fun r k => if negb (dict_mem r k) then dict_set r k [] else r)
    FIELDS result.

(** The value of [k] in [d] when it is there and not empty. *)
Definition pick (d : dict) (k : str) : option str :=
  match dict_get d k with
  | Some v => if truthy v then Some v else None
  | None => None
  end.

(** The first of two lookups that gives a value. *)
Definition or_else (a b : option str) : option str :=
  match a with
  | Some v => Some v
  | None => b
  end.

(** ** [parse_soc_matrix] and [parse_s1_soc_matrix] (ORCA file) *)

(** [text.split('\n')] *)
Fixpoint split_lines (s : str) : list str :=
  match s with
  | [] => [[]]
  | c :: rest =>
      if char_eqb c NL then [] :: split_lines rest
      else cons_first c (split_lines rest)
  end.

(** The eight groups of a line the pattern matches. *)
Record soc_groups : Type := {
  group1 : str; group2 : str; group3 : str; group4 : str;
  group5 : str; group6 : str; group7 : str; group8 : str
}.

Section SocMatrix.

(** The floating point numbers, [re.match] with the pattern of a data
    line, [int] and [float]; [None] is the [ValueError] a conversion
    raises. *)
Variable float : Type.
Variable re_match_row : str -> option soc_groups.
Variable int_of : str -> option Z.
Variable float_of : str -> option float.

(** [complex(float(re), float(im))] *)
Definition complex_of (re im : str) : option (float * float) :=
  match float_of re with
  | None => None
  | Some a =>
      match float_of im with
      | None => None
      | Some b => Some (a, b)
      end
  end.

(** A row [(t, s, ms0, msm1, msp1)]. *)
Definition soc_row : Type :=
  (Z * Z * (float * float) * (float * float) * (float * float))%type.

Definition row_s (r : soc_row) : Z :=
  match r with
  | (_, s, _, _, _) => s
  end.

(** The three complex numbers of a matched line. *)
Definition row_of (t s : Z) (m : soc_groups) : option soc_row :=
  match complex_of (group3 m) (group4 m) with
  | None => None
  | Some ms0 =>
      match complex_of (group5 m) (group6 m) with
      | None => None
      | Some msm1 =>
          match complex_of (group7 m) (group8 m) with
          | None => None
          | Some msp1 => Some (t, s, ms0, msm1, msp1)
          end
      end
  end.

(** The body of the loop of [parse_soc_matrix]; [None] when it raises. *)
Definition soc_step (soc_data : option (list soc_row)) (line : str)
  : option (list soc_row) :=
  match soc_data with
  | None => None
  | Some rows =>
      match re_match_row line with
      | None => Some rows
      | Some m =>
          match int_of (group1 m) with
          | None => None
          | Some t =>
              match int_of (group2 m) with
              | None => None
              | Some s =>
                  match row_of t s m with
                  | None => None
                  | Some r => Some (rows ++ [r])
                  end
              end
          end
      end
  end.

(** The body of the loop of [parse_s1_soc_matrix]. *)
Definition s1_step (soc_data : option (list soc_row)) (line : str)
  : option (list soc_row) :=
  match soc_data with
  | None => None
  | Some rows =>
      match re_match_row line with
      | None => Some rows
      | Some m =>
          match int_of (group1 m) with
          | None => None
          | Some t =>
              match int_of (group2 m) with
              | None => None
              | Some s =>
                  if (s =? 1)%Z then
                    match row_of t s m with
                    | None => None
                    | Some r => Some (rows ++ [r])
                    end
                  else Some rows
              end
          end
      end
  end.

Definition parse_soc_matrix (text : str) : option (list soc_row) :=
  fold_left soc_step (split_lines (strip text)) (Some []).

Definition parse_s1_soc_matrix (text : str) : option (list soc_row) :=
  fold_left s1_step (split_lines (strip text)) (Some []).

End SocMatrix.

Arguments row_s {float} r.

(** * Properties *)

(** ** Strings *)

Lemma str_eqb_eq (a b : str) : str_eqb a b = true <-> a = b.
Proof.
  revert b; induction a as [|x a IH]; intros [|y b]; simpl;
    try (split; (discriminate || reflexivity)).
  unfold char_eqb; rewrite andb_true_iff, N.eqb_eq, IH.
  split; [intros [-> ->]; reflexivity | intros E; inversion E; auto].
Qed.

Lemma str_eqb_neq (a b : str) : str_eqb a b = false <-> a <> b.
Proof.
  rewrite <- str_eqb_eq; destruct (str_eqb a b); split; congruence.
Qed.

(** The last [n] characters of [s] are [t] exactly when [s] ends with [t],
    for a [t] of [n] characters. *)
Lemma last_chars_ends (n : nat) (s t : str) :
  length t = n -> n <= length s ->
  (last_chars n s = t <-> exists before, s = before ++ t).
Proof.
  intros Ht Hn; unfold last_chars; split.
  - intros E; exists (firstn (length s - n) s).
    rewrite <- E; symmetry; apply firstn_skipn.
  - intros [before ->]; rewrite length_app, Ht.
    replace (length before + n - n) with (length before + 0) by lia.
    rewrite skipn_app, Nat.add_0_r, skipn_all, Nat.sub_diag; reflexivity.
Qed.

(** ** White space *)

Lemma truthy_false (s : str) : truthy s = false <-> s = [].
Proof. destruct s; simpl; split; congruence. Qed.

Lemma truthy_true (s : str) : truthy s = true <-> s <> [].
Proof. destruct s; simpl; split; congruence. Qed.

Lemma lstrip_nil (s : str) : lstrip s = [] <-> forallb isspace s = true.
Proof.
  induction s as [|c s IH]; simpl; [tauto|].
  destruct (isspace c); simpl; [exact IH | split; discriminate].
Qed.

Lemma lstrip_head (s : str) (c : char) (t : str) :
  lstrip s = c :: t -> isspace c = false.
Proof.
  induction s as [|d s IH]; simpl; [discriminate|].
  destruct (isspace d) eqn:E; [exact IH | congruence].
Qed.

Lemma forallb_rev (f : char -> bool) (s : str) :
  forallb f (rev s) = forallb f s.
Proof.
  induction s as [|c s IH]; simpl; [reflexivity|].
  rewrite forallb_app, IH; simpl; rewrite andb_true_r; apply andb_comm.
Qed.

(** [not s.strip()] holds exactly for the strings made of white space. *)
Lemma is_blank_true (s : str) :
  is_blank s = true <-> forallb isspace s = true.
Proof.
  unfold is_blank, strip, rstrip.
  rewrite negb_true_iff, truthy_false; split.
  - intros H; apply (f_equal (@rev char)) in H.
    rewrite rev_involutive in H; simpl in H.
    apply lstrip_nil in H; rewrite forallb_rev in H.
    destruct (lstrip s) as [|c t] eqn:E; [apply lstrip_nil; exact E|].
    apply lstrip_head in E; simpl in H; rewrite E in H; discriminate.
  - intros H; apply lstrip_nil in H; rewrite H; reflexivity.
Qed.

Lemma is_blank_false (s : str) :
  is_blank s = false <-> exists c, In c s /\ isspace c = false.
Proof.
  rewrite <- not_true_iff_false, is_blank_true, forallb_forall; split.
  - intros H; induction s as [|c s IH].
    + exfalso; apply H; intros ? [].
    + destruct (isspace c) eqn:E.
      * destruct IH as (d & Hd & Hs).
        { intros G; apply H; intros x [<-|Hx]; auto. }
        exists d; split; [right|]; assumption.
      * exists c; split; [left; reflexivity | exact E].
  - intros (c & Hc & Hs) H; rewrite (H c Hc) in Hs; discriminate.
Qed.

Lemma not_blank_not_nil (s : str) : is_blank s = false -> s <> [].
Proof. intros H ->; discriminate. Qed.

Lemma non_whitespace_app (a b : str) :
  non_whitespace (a ++ b) = non_whitespace a ++ non_whitespace b.
Proof. apply filter_app. Qed.

Lemma non_whitespace_blank (s : str) :
  is_blank s = true -> non_whitespace s = [].
Proof.
  rewrite is_blank_true; unfold non_whitespace.
  induction s as [|c s IH]; simpl; [reflexivity|].
  rewrite andb_true_iff; intros [-> H]; simpl; auto.
Qed.

(** ** Sentences *)

Lemma split_sentences_nil : split_sentences [] = [[]].
Proof. reflexivity. Qed.

Lemma re_split_terminal_not_nil (s : str) : re_split_terminal s <> [].
Proof.
  induction s as [|c s IH]; simpl; [discriminate|].
  destruct (is_terminal c); [discriminate|].
  destruct (re_split_terminal s); [congruence | discriminate].
Qed.

(** The sentences, read off the text one character at a time: a mark
    closes the sentence it ends. *)
Lemma split_sentences_cons (c : char) (rest : str) :
  split_sentences (c :: rest)
  = if is_terminal c then [c] :: split_sentences rest
    else cons_first c (split_sentences rest).
Proof.
  unfold split_sentences; cbn [re_split_terminal].
  pose proof (re_split_terminal_not_nil rest) as H.
  destruct (is_terminal c), (re_split_terminal rest) as [|t0 [|d0 R]];
    try congruence; reflexivity.
Qed.

Lemma concat_cons_first (c : char) (l : list str) :
  concat (cons_first c l) = c :: concat l.
Proof. destruct l; reflexivity. Qed.

(** The sentences of a paragraph make up the paragraph. *)
Lemma concat_split_sentences (p : str) : concat (split_sentences p) = p.
Proof.
  induction p as [|c p IH]; [reflexivity|].
  rewrite split_sentences_cons; destruct (is_terminal c).
  - simpl; rewrite IH; reflexivity.
  - rewrite concat_cons_first, IH; reflexivity.
Qed.

(** ** The assembler packs segments *)

Lemma fold_left_invariant {A B : Type} (P : A -> Prop) (f : A -> B -> A)
  (l : list B) (a : A) :
  P a -> (forall a b, In b l -> P a -> P (f a b)) -> P (fold_left f l a).
Proof.
  revert a; induction l as [|b l IH]; intros a Ha Hf; simpl; [exact Ha|].
  apply IH; [apply Hf; [left; reflexivity | exact Ha]|].
  intros a' b' Hb'; apply Hf; right; exact Hb'.
Qed.

Lemma render_cons_prefix (g : segment) (rest : list segment) :
  exists t, render (g :: rest) = segment_text g ++ t.
Proof.
  unfold render; generalize (segment_text g) as a.
  induction rest as [|h rest IH]; intros a; simpl.
  - exists []; rewrite app_nil_r; reflexivity.
  - destruct (IH (a ++ separator h ++ segment_text h)) as [t ->].
    eexists; rewrite <- app_assoc; reflexivity.
Qed.

Lemma render_snoc (group : list segment) (h : segment) :
  group <> [] ->
  render (group ++ [h]) = render group ++ separator h ++ segment_text h.
Proof.
  destruct group as [|g rest]; [congruence|]; intros _.
  unfold render; simpl; rewrite fold_left_app; reflexivity.
Qed.

Lemma render_not_nil (group : list segment) :
  group <> [] -> Forall (fun g => segment_text g <> []) group ->
  render group <> [].
Proof.
  destruct group as [|g rest]; [congruence|]; intros _ H.
  destruct (render_cons_prefix g rest) as [t ->].
  inversion H; subst; destruct (segment_text g); [congruence | discriminate].
Qed.

(** A segment of a group occurs in the chunk made of the group. *)
Lemma render_occurs (group : list segment) (h : segment) :
  In h group -> occurs_in (segment_text h) (render group).
Proof.
  intros H; apply in_split in H; destruct H as (l1 & l2 & ->).
  destruct l1 as [|g l1].
  - change ([] ++ h :: l2) with (h :: l2).
    destruct (render_cons_prefix h l2) as [t ->].
    exists [], t; reflexivity.
  - unfold render; simpl; rewrite fold_left_app; simpl.
    set (a := fold_left _ l1 _).
    assert (H : forall l b, exists t,
               fold_left (fun buffer h0 =>
                            buffer ++ separator h0 ++ segment_text h0) l b
               = b ++ t).
    { induction l as [|x l IH]; intros b; simpl.
      - exists []; rewrite app_nil_r; reflexivity.
      - destruct (IH (b ++ separator x ++ segment_text x)) as [t ->].
        eexists; rewrite <- app_assoc; reflexivity. }
    destruct (H l2 (a ++ separator h ++ segment_text h)) as [t ->].
    exists (a ++ separator h), t; rewrite <- !app_assoc; reflexivity.
Qed.

Lemma non_whitespace_render (group : list segment) :
  non_whitespace (render group)
  = non_whitespace (concat (map segment_text group)).
Proof.
  destruct group as [|g rest]; [reflexivity|].
  unfold render; simpl; rewrite non_whitespace_app.
  generalize (segment_text g) as a; induction rest as [|h rest IH];
    intros a; simpl; [rewrite app_nil_r; reflexivity|].
  rewrite IH, !non_whitespace_app, <- app_assoc; do 2 f_equal.
  destruct h; reflexivity.
Qed.

(** Case analysis on the budget test the goal is stuck on. *)
Ltac case_budget E :=
  match goal with
  | |- context [within_budget ?c ?m ?t] =>
      destruct (within_budget c m t) eqn:E
  end.

Section ChunkingFacts.

Variable count : str -> nat.
Variable max_tokens : Z.

Abbreviation within := (within_budget count max_tokens).
Abbreviation seg_step := (segment_step count max_tokens).
Abbreviation segs_of_paragraph := (segments_of_paragraph count max_tokens).
Abbreviation segs_of := (segments_of count max_tokens).

Lemma sentence_step_segment (st : chunk_state) (s : str) :
  is_blank s = false ->
  sentence_step count max_tokens st s = seg_step st (Sentence s).
Proof.
  intros H; destruct st as [chunks cur]; unfold sentence_step, segment_step.
  rewrite H; reflexivity.
Qed.

Lemma sentences_fold_segments (l : list str) (st : chunk_state) :
  fold_left (sentence_step count max_tokens) l st
  = fold_left seg_step
      (map Sentence (filter (fun s => negb (is_blank s)) l)) st.
Proof.
  revert st; induction l as [|s l IH]; intros st; simpl; [reflexivity|].
  destruct (is_blank s) eqn:E; simpl.
  - rewrite <- IH; f_equal; destruct st; unfold sentence_step.
    rewrite E; reflexivity.
  - rewrite <- IH, sentence_step_segment by exact E; reflexivity.
Qed.

(** A paragraph over the budget closes the buffer first; then, as for
    any paragraph, its segments are packed one by one. *)
Lemma paragraph_step_segments (st : chunk_state) (p : str) :
  paragraph_step count max_tokens st p
  = fold_left seg_step (segs_of_paragraph p)
      (if is_blank p then st
       else if negb (within p) then (flush (fst st) (snd st), [])
       else st).
Proof.
  destruct st as [chunks cur]; unfold paragraph_step, segments_of_paragraph.
  destruct (is_blank p); [reflexivity|].
  destruct (negb (within p)); [apply sentences_fold_segments|].
  reflexivity.
Qed.

Lemma segments_not_blank (p : str) :
  Forall (fun g => is_blank (segment_text g) = false) (segs_of_paragraph p).
Proof.
  unfold segments_of_paragraph.
  destruct (is_blank p) eqn:E; [constructor|].
  destruct (negb (within p)); [|repeat constructor; exact E].
  apply Forall_forall; intros g Hg; apply in_map_iff in Hg.
  destruct Hg as (s & <- & Hs); apply filter_In in Hs.
  simpl; apply negb_true_iff; tauto.
Qed.

Lemma segments_of_not_blank (ps : list str) :
  Forall (fun g => is_blank (segment_text g) = false) (segs_of ps).
Proof.
  unfold segments_of; induction ps as [|p ps IH]; simpl; [constructor|].
  apply Forall_app; split; [apply segments_not_blank | exact IH].
Qed.

Lemma grouped_flush (segs : list segment) (st : chunk_state) :
  Forall (fun g => segment_text g <> []) segs ->
  grouped segs st -> grouped segs (flush (fst st) (snd st), []).
Proof.
  intros Hne (groups & open & Hc & Hg & Hb & Hs).
  destruct st as [chunks cur]; simpl in *; unfold flush.
  destruct (truthy cur) eqn:E.
  - assert (open <> []) by
      (intros ->; subst cur; discriminate).
    exists (groups ++ [open]), []; simpl.
    rewrite map_app, concat_app, Forall_app; simpl.
    rewrite !app_nil_r; subst; repeat split; auto.
  - apply truthy_false in E; subst cur.
    assert (open = []).
    { destruct open as [|g r]; [reflexivity|]; exfalso.
      assert (render (g :: r) <> []); [|congruence].
      apply render_not_nil; [discriminate|].
      subst segs; apply Forall_app in Hne; tauto. }
    subst open; exists groups, []; auto.
Qed.

Lemma grouped_segment_step (segs : list segment) (st : chunk_state)
  (h : segment) :
  Forall (fun g => segment_text g <> []) segs ->
  grouped segs st -> grouped (segs ++ [h]) (seg_step st h).
Proof.
  intros Hne (groups & open & Hc & Hg & Hb & Hs).
  destruct st as [chunks cur]; simpl in *; unfold segment_step, flush.
  destruct (truthy cur) eqn:E.
  - assert (Ho : open <> []) by (intros ->; subst cur; discriminate).
    destruct (within _).
    + exists groups, (open ++ [h]); simpl.
      rewrite render_snoc by exact Ho; subst; repeat split; auto.
      apply app_assoc.
    + exists (groups ++ [open]), [h]; simpl.
      rewrite map_app, concat_app, Forall_app; simpl.
      rewrite app_nil_r; subst; repeat split; auto.
  - apply truthy_false in E; subst cur.
    assert (open = []).
    { destruct open as [|g r]; [reflexivity|]; exfalso.
      assert (render (g :: r) <> []); [|congruence].
      apply render_not_nil; [discriminate|].
      subst segs; apply Forall_app in Hne; tauto. }
    subst open; rewrite app_nil_r in Hs.
    destruct (within _); exists groups, [h]; simpl; subst; auto.
Qed.

Lemma grouped_segments (l segs : list segment) (st : chunk_state) :
  Forall (fun g => segment_text g <> []) (segs ++ l) ->
  grouped segs st -> grouped (segs ++ l) (fold_left seg_step l st).
Proof.
  revert segs st; induction l as [|h l IH]; intros segs st Hne H; simpl.
  - rewrite app_nil_r; exact H.
  - replace (segs ++ h :: l) with ((segs ++ [h]) ++ l) in *
      by (rewrite <- app_assoc; reflexivity).
    apply IH; [exact Hne|].
    apply grouped_segment_step; [|exact H].
    apply Forall_app in Hne; destruct Hne as [Hne _].
    apply Forall_app in Hne; tauto.
Qed.

Lemma segs_of_snoc (done : list str) (p : str) :
  segs_of (done ++ [p]) = segs_of done ++ segs_of_paragraph p.
Proof.
  unfold segments_of; rewrite flat_map_app; simpl.
  rewrite app_nil_r; reflexivity.
Qed.

Lemma segments_text_not_nil (ps : list str) :
  Forall (fun g => segment_text g <> []) (segs_of ps).
Proof.
  eapply Forall_impl; [|apply segments_of_not_blank].
  intros g; apply not_blank_not_nil.
Qed.

Lemma grouped_paragraphs (ps done : list str) (st : chunk_state) :
  grouped (segs_of done) st ->
  grouped (segs_of (done ++ ps))
    (fold_left (paragraph_step count max_tokens) ps st).
Proof.
  revert done st; induction ps as [|p ps IH]; intros done st H; simpl.
  - rewrite app_nil_r; exact H.
  - replace (done ++ p :: ps) with ((done ++ [p]) ++ ps)
      by (rewrite <- app_assoc; reflexivity).
    apply IH; rewrite paragraph_step_segments, segs_of_snoc.
    apply grouped_segments;
      [rewrite <- segs_of_snoc; apply segments_text_not_nil|].
    destruct (is_blank p); [exact H|].
    destruct (negb (within p)); [|exact H].
    apply grouped_flush; [apply segments_text_not_nil | exact H].
Qed.

(** The chunks are the segments, in order, cut into runs. *)
Lemma assemble_groups (ps : list str) :
  exists groups,
    concat groups = segs_of ps /\
    Forall (fun group => group <> []) groups /\
    assemble count max_tokens ps = map render groups.
Proof.
  unfold assemble.
  assert (H : grouped (segs_of ([] ++ ps))
                (fold_left (paragraph_step count max_tokens) ps ([], []))).
  { apply grouped_paragraphs; exists [], []; simpl; auto. }
  simpl in H; apply grouped_flush in H; [|apply segments_text_not_nil].
  destruct (fold_left _ ps _) as [chunks cur]; simpl in H.
  destruct H as (groups & open & Hc & Hg & Hb & Hs); simpl in *.
  assert (open = []).
  { destruct open as [|g r]; [reflexivity|]; exfalso.
    assert (render (g :: r) <> []); [|congruence].
    apply render_not_nil; [discriminate|].
    pose proof (segments_text_not_nil ps) as Hne.
    rewrite <- Hs in Hne; apply Forall_app in Hne; tauto. }
  subst open; exists groups; rewrite app_nil_r in Hs; auto.
Qed.

(** *** The budget *)

Section Budget.

Variable ps : list str.

Abbreviation ok := (budget_ok count max_tokens ps).

Lemma flush_ok (chunks : list str) (cur : str) :
  budget_invariant count max_tokens ps (chunks, cur) -> Forall ok (flush chunks cur).
Proof.
  intros [Hc Hb]; simpl in *; unfold flush.
  destruct (truthy cur) eqn:E; [|exact Hc].
  apply Forall_app; split; [exact Hc|].
  destruct Hb as [->|Hb]; [discriminate|].
  constructor; [exact Hb | constructor].
Qed.

Lemma sentence_step_ok (p : str) (st : chunk_state) (s : str) :
  In p ps -> is_blank p = false -> within p = false ->
  In s (split_sentences p) ->
  budget_invariant count max_tokens ps st ->
  budget_invariant count max_tokens ps (sentence_step count max_tokens st s).
Proof.
  intros Hp Hbp Hwp Hs Hinv; destruct st as [chunks cur].
  unfold sentence_step.
  destruct (is_blank s) eqn:Es; [exact Hinv|].
  cbv zeta; case_budget Et.
  - split; [apply Hinv | right; left; exact Et].
  - split; [apply flush_ok; exact Hinv|]; simpl; right.
    destruct (within s) eqn:Ew; [left; exact Ew|].
    right; exists p; auto 10.
Qed.

Lemma paragraph_step_ok (st : chunk_state) (p : str) :
  In p ps -> budget_invariant count max_tokens ps st ->
  budget_invariant count max_tokens ps (paragraph_step count max_tokens st p).
Proof.
  intros Hp Hinv; destruct st as [chunks cur]; unfold paragraph_step.
  destruct (is_blank p) eqn:Eb; [exact Hinv|].
  destruct (within p) eqn:Ew; simpl.
  - cbv zeta; case_budget Et.
    + split; [apply Hinv | right; left; exact Et].
    + split; [apply flush_ok; exact Hinv | right; left; exact Ew].
  - apply fold_left_invariant.
    + split; [apply flush_ok; exact Hinv | left; reflexivity].
    + intros st s Hs; apply (sentence_step_ok p); auto.
Qed.

Lemma assemble_ok : Forall ok (assemble count max_tokens ps).
Proof.
  unfold assemble.
  assert (H : budget_invariant count max_tokens ps
                (fold_left (paragraph_step count max_tokens) ps ([], []))).
  { apply fold_left_invariant.
    - split; [constructor | left; reflexivity].
    - intros st p Hp; apply paragraph_step_ok; exact Hp. }
  destruct (fold_left _ ps _) as [chunks cur]; apply flush_ok; exact H.
Qed.

End Budget.

(** *** A sentence over the budget, under a tokenizer that counts no
    fewer tokens in a text than in its parts *)

Section OwnChunk.

Hypothesis count_app_l : forall a b, count a <= count (a ++ b).
Hypothesis count_app_r : forall a b, count b <= count (a ++ b).

Variable s : str.
Hypothesis s_not_blank : is_blank s = false.
Hypothesis s_over : within s = false.

Lemma over_app_l (t : str) : within (s ++ t) = false.
Proof.
  revert s_over; unfold within_budget; rewrite !Z.leb_gt.
  pose proof (count_app_l s t); lia.
Qed.

Lemma over_app_r (t : str) : within (t ++ s) = false.
Proof.
  revert s_over; unfold within_budget; rewrite !Z.leb_gt.
  pose proof (count_app_r t s); lia.
Qed.

Lemma s_truthy : truthy s = true.
Proof.
  apply truthy_true, not_blank_not_nil; exact s_not_blank.
Qed.

Lemma held_flush (chunks : list str) (cur : str) :
  held s (chunks, cur) -> In s (flush chunks cur).
Proof.
  unfold held, flush; simpl; intros [H| ->].
  - destruct (truthy cur); [apply in_or_app; left|]; exact H.
  - rewrite s_truthy; apply in_or_app; right; left; reflexivity.
Qed.

Lemma held_sentence_step (st : chunk_state) (x : str) :
  held s st -> held s (sentence_step count max_tokens st x).
Proof.
  intros H; destruct st as [chunks cur]; unfold sentence_step.
  destruct (is_blank x); [exact H|].
  cbv zeta; case_budget Et; [|left; apply held_flush; exact H].
  destruct H as [H| H]; [left; exact H|]; simpl in H; subst cur.
  rewrite s_truthy, over_app_l in Et; discriminate.
Qed.

Lemma held_paragraph_step (st : chunk_state) (p : str) :
  held s st -> held s (paragraph_step count max_tokens st p).
Proof.
  intros H; destruct st as [chunks cur]; unfold paragraph_step.
  destruct (is_blank p); [exact H|].
  destruct (negb (within p)).
  - apply fold_left_invariant;
      [left; apply held_flush; exact H|].
    intros st x _; apply held_sentence_step.
  - cbv zeta; case_budget Et; [|left; apply held_flush; exact H].
    destruct H as [H| H]; [left; exact H|]; simpl in H; subst cur.
    rewrite s_truthy, over_app_l in Et; discriminate.
Qed.

Lemma sentence_step_holds (st : chunk_state) :
  held s (sentence_step count max_tokens st s).
Proof.
  destruct st as [chunks cur]; unfold sentence_step.
  rewrite s_not_blank; cbv zeta.
  case_budget Et; [exfalso | right; reflexivity].
  destruct (truthy cur);
    [rewrite over_app_r in Et | rewrite s_over in Et]; discriminate.
Qed.

Lemma own_chunk (ps : list str) (p : str) :
  In p ps -> is_blank p = false -> within p = false ->
  In s (split_sentences p) ->
  In s (assemble count max_tokens ps).
Proof.
  intros Hp Hb Hw Hs; unfold assemble.
  apply in_split in Hp; destruct Hp as (l1 & l2 & ->).
  apply in_split in Hs; destruct Hs as (m1 & m2 & Hm).
  rewrite fold_left_app; simpl.
  set (st := fold_left _ l1 _).
  assert (H : held s (paragraph_step count max_tokens st p)).
  { destruct st as [chunks cur]; unfold paragraph_step.
    rewrite Hb, Hw, Hm, fold_left_app; simpl.
    apply fold_left_invariant; [apply sentence_step_holds|].
    intros st x _; apply held_sentence_step. }
  assert (H' : held s (fold_left (paragraph_step count max_tokens) l2
                       (paragraph_step count max_tokens st p))).
  { apply fold_left_invariant; [exact H|].
    intros st' x _; apply held_paragraph_step. }
  destruct (fold_left _ l2 _) as [chunks cur]; apply held_flush; exact H'.
Qed.

End OwnChunk.

(** *** A paragraph of one sentence *)

Lemma single_sentence_split (p : str) :
  single_sentence p = true ->
  split_sentences p = [p] \/ split_sentences p = [p; []].
Proof.
  unfold single_sentence; induction p as [|c p IH]; intros H;
    [left; reflexivity|].
  rewrite split_sentences_cons; destruct p as [|d p].
  - destruct (is_terminal c); [right | left]; reflexivity.
  - change (removelast (c :: d :: p)) with (c :: removelast (d :: p)) in H.
    simpl in H; apply andb_true_iff in H; destruct H as [Hc H].
    apply negb_true_iff in Hc; rewrite Hc.
    destruct (IH H) as [-> | ->]; [left | right]; reflexivity.
Qed.

Lemma single_sentence_step (chunks : list str) (cur p : str) :
  is_blank p = false -> within p = false -> single_sentence p = true ->
  paragraph_step count max_tokens (chunks, cur) p = (flush chunks cur, p).
Proof.
  intros Hb Hw Hs; unfold paragraph_step; rewrite Hb, Hw; cbn [negb].
  assert (E : sentence_step count max_tokens (flush chunks cur, []) p
              = (flush chunks cur, p))
    by (unfold sentence_step; rewrite Hb; simpl; rewrite Hw; reflexivity).
  destruct (single_sentence_split p Hs) as [-> | ->]; cbn [fold_left];
    rewrite E; reflexivity.
Qed.

End ChunkingFacts.

(** ** What the chunks keep *)

Lemma non_whitespace_concat_filter (l : list str) :
  non_whitespace (concat (filter (fun s => negb (is_blank s)) l))
  = non_whitespace (concat l).
Proof.
  induction l as [|x l IH]; simpl; [reflexivity|].
  destruct (is_blank x) eqn:E; simpl; rewrite !non_whitespace_app, ?IH.
  - rewrite (non_whitespace_blank x E); reflexivity.
  - reflexivity.
Qed.

Lemma non_whitespace_segments_of_paragraph (count : str -> nat)
  (max_tokens : Z) (p : str) :
  non_whitespace
    (concat (map segment_text (segments_of_paragraph count max_tokens p)))
  = non_whitespace p.
Proof.
  unfold segments_of_paragraph; destruct (is_blank p) eqn:E.
  - rewrite (non_whitespace_blank p E); reflexivity.
  - destruct (negb _); [|simpl; rewrite app_nil_r; reflexivity].
    rewrite map_map; simpl; rewrite map_id, non_whitespace_concat_filter.
    rewrite concat_split_sentences; reflexivity.
Qed.

Lemma non_whitespace_segments_of (count : str -> nat) (max_tokens : Z)
  (ps : list str) :
  non_whitespace (concat (map segment_text (segments_of count max_tokens ps)))
  = non_whitespace (concat ps).
Proof.
  unfold segments_of; induction ps as [|p ps IH]; simpl; [reflexivity|].
  rewrite map_app, concat_app, !non_whitespace_app, IH.
  rewrite non_whitespace_segments_of_paragraph; reflexivity.
Qed.

Lemma non_whitespace_groups (groups : list (list segment)) :
  non_whitespace (concat (map render groups))
  = non_whitespace (concat (map segment_text (concat groups))).
Proof.
  induction groups as [|g groups IH]; simpl; [reflexivity|].
  rewrite map_app, concat_app, !non_whitespace_app, IH.
  rewrite non_whitespace_render; reflexivity.
Qed.

(** The chunks hold the characters of the paragraphs that are not white
    space, in order. *)
Lemma assemble_keeps_non_whitespace (count : str -> nat) (max_tokens : Z)
  (paragraphs : list str) :
  (exists groups : list (list segment),
     concat groups = segments_of count max_tokens paragraphs /\
     Forall (fun group => group <> []) groups /\
     assemble count max_tokens paragraphs = map render groups) /\
  non_whitespace (concat (assemble count max_tokens paragraphs))
  = non_whitespace (concat paragraphs).
Proof.
  split; [apply assemble_groups|].
  destruct (assemble_groups count max_tokens paragraphs)
    as (groups & Hs & _ & ->).
  rewrite non_whitespace_groups, Hs; apply non_whitespace_segments_of.
Qed.

(** C5: the chunks are the segments of the paragraphs (each paragraph
    that is not blank, whole when it is within the budget and as its
    sentences that are not blank when it is over it), in their order, cut
    into consecutive runs that are not empty: every segment lies in
    exactly one chunk.  Nothing but white space is lost: the characters
    of the chunks that are not white space are those of the paragraphs, in
    the same order. *)
Theorem assemble_order_and_content :
  forall (count : str -> nat) (max_tokens : Z) (paragraphs : list str),
    (exists groups : list (list segment),
       concat groups = segments_of count max_tokens paragraphs /\
       Forall (fun group => group <> []) groups /\
       assemble count max_tokens paragraphs = map render groups) /\
    non_whitespace (concat (assemble count max_tokens paragraphs))
    = non_whitespace (concat paragraphs) /\
    (forall p : str,
       is_blank p = false ->
       (within_budget count max_tokens p = true ->
        segments_of_paragraph count max_tokens p = [Paragraph p]) /\
       (within_budget count max_tokens p = false ->
        segments_of_paragraph count max_tokens p
        = map Sentence
            (filter (fun s => negb (is_blank s)) (split_sentences p)) /\
        concat (split_sentences p) = p)).
Proof.
  intros count max_tokens paragraphs; split; [apply assemble_groups|]; split.
  - apply assemble_keeps_non_whitespace.
  - intros p Hb; unfold segments_of_paragraph; rewrite Hb.
    split; intros ->; simpl; auto using concat_split_sentences.
Qed.

(** The theorem at a paragraph over a budget of five characters: its
    segments are its two sentences. *)
Lemma assemble_order_and_content_witness :
  segments_of_paragraph (@length char) 5 (str_of "Hello world. Hi.")
  = map Sentence
      (filter (fun s => negb (is_blank s))
         (split_sentences (str_of "Hello world. Hi."))) /\
  concat (split_sentences (str_of "Hello world. Hi."))
  = str_of "Hello world. Hi.".
Proof.
  refine (proj2 (proj2 (proj2 (assemble_order_and_content (@length char) 5
                                 [str_of "Hello world. Hi."]))
                   (str_of "Hello world. Hi.") _) _).
  - vm_compute; reflexivity.
  - vm_compute; reflexivity.
Defined.

(** A sentence that is not blank, of a paragraph over the budget, occurs
    in a chunk. *)
Lemma sentence_is_kept (count : str -> nat) (max_tokens : Z)
  (ps : list str) (p s : str) :
  In p ps -> is_blank p = false -> within_budget count max_tokens p = false ->
  In s (split_sentences p) -> is_blank s = false ->
  exists chunk, In chunk (assemble count max_tokens ps) /\ occurs_in s chunk.
Proof.
  intros Hp Hb Hw Hs Hbs.
  destruct (assemble_groups count max_tokens ps) as (groups & Hc & _ & ->).
  assert (Hseg : In (Sentence s) (concat groups)).
  { rewrite Hc; unfold segments_of; apply in_flat_map; exists p.
    split; [exact Hp|]; unfold segments_of_paragraph; rewrite Hb, Hw; simpl.
    apply in_map, filter_In; rewrite Hbs; auto. }
  apply in_concat in Hseg; destruct Hseg as (g & Hg & Hsg).
  exists (render g); split; [apply in_map; exact Hg|].
  apply (render_occurs g (Sentence s)); exact Hsg.
Qed.

Lemma within_budget_true (count : str -> nat) (max_tokens : Z) (t : str) :
  within_budget count max_tokens t = true
  <-> (Z.of_nat (count t) <= max_tokens)%Z.
Proof. apply Z.leb_le. Qed.

Lemma within_budget_false (count : str -> nat) (max_tokens : Z) (t : str) :
  within_budget count max_tokens t = false
  <-> (max_tokens < Z.of_nat (count t))%Z.
Proof. apply Z.leb_gt. Qed.

Lemma in_paragraphs_of (text p : str) :
  In p (paragraphs_of text) <-> In p (split_nlnl text) /\ is_blank p = false.
Proof.
  unfold paragraphs_of; rewrite filter_In, negb_true_iff; reflexivity.
Qed.

(** C2, as the code has it: whatever the text, the budget and the
    tokenizer, a chunk is within the budget unless it is exactly one
    sentence, itself over the budget, of a paragraph over the budget.  A
    sentence is never dropped: each sentence of such a paragraph that is
    not blank occurs in a chunk.  A sentence over the budget is a chunk of
    its own under a tokenizer that counts no fewer tokens in a text than
    in its parts, and not under every tokenizer. *)
Theorem chunks_within_budget :
  forall (count : str -> nat) (max_tokens : Z) (text : str),
    (forall chunk : str,
       In chunk (split_text_into_chunks count max_tokens text) ->
       (Z.of_nat (count chunk) <= max_tokens)%Z \/
       exists paragraph : str,
         In paragraph (paragraphs_of text) /\
         (max_tokens < Z.of_nat (count paragraph))%Z /\
         In chunk (split_sentences paragraph) /\
         is_blank chunk = false /\
         (max_tokens < Z.of_nat (count chunk))%Z) /\
    (forall paragraph sentence : str,
       In paragraph (paragraphs_of text) ->
       (max_tokens < Z.of_nat (count paragraph))%Z ->
       In sentence (split_sentences paragraph) ->
       is_blank sentence = false ->
       exists chunk : str,
         In chunk (split_text_into_chunks count max_tokens text) /\
         occurs_in sentence chunk) /\
    ((forall a b : str,
        count a <= count (a ++ b) /\ count b <= count (a ++ b)) ->
     forall paragraph sentence : str,
       In paragraph (paragraphs_of text) ->
       (max_tokens < Z.of_nat (count paragraph))%Z ->
       In sentence (split_sentences paragraph) ->
       is_blank sentence = false ->
       (max_tokens < Z.of_nat (count sentence))%Z ->
       In sentence (split_text_into_chunks count max_tokens text)).
Proof.
  intros count max_tokens text; unfold split_text_into_chunks.
  split; [|split].
  - intros chunk H.
    pose proof (assemble_ok count max_tokens (split_nlnl text)) as Hok.
    rewrite Forall_forall in Hok.
    destruct (Hok chunk H) as [Hw | (p & Hp & Hb & Hw & Hs & Hbs & Hws)].
    + left; apply within_budget_true; exact Hw.
    + right; exists p; rewrite in_paragraphs_of.
      rewrite within_budget_false in Hw, Hws; auto 10.
  - intros p s Hp Hw Hs Hbs; apply in_paragraphs_of in Hp.
    apply (sentence_is_kept count max_tokens _ p s); try tauto.
    apply within_budget_false; exact Hw.
  - intros Hmono p s Hp Hw Hs Hbs Hws; apply in_paragraphs_of in Hp.
    apply (own_chunk count max_tokens) with (p := p); try tauto.
    + intros a b; apply Hmono.
    + intros a b; apply Hmono.
    + apply within_budget_false; exact Hws.
    + apply within_budget_false; exact Hw.
Qed.

(** The theorem at a paragraph of two sentences, tokens counted as
    characters, five to a chunk: the first sentence is over the budget and
    is a chunk of its own. *)
Lemma chunks_within_budget_witness :
  In (str_of "Hello world.")
    (split_text_into_chunks (@length char) 5 (str_of "Hello world. Hi.")).
Proof.
  apply (proj2 (proj2 (chunks_within_budget (@length char) 5
                         (str_of "Hello world. Hi."))))
    with (paragraph := str_of "Hello world. Hi.").
  - intros a b; rewrite length_app; lia.
  - vm_compute; left; reflexivity.
  - vm_compute; reflexivity.
  - vm_compute; left; reflexivity.
  - vm_compute; reflexivity.
  - vm_compute; reflexivity.
Defined.

(** C2, as the specification words it, fails on the code: under a
    tokenizer that counts ten tokens in a text of three or nine
    characters and one in any other, with five tokens to a chunk, the first
    sentence of a paragraph of three sentences is over the budget, and so
    is the paragraph, yet the sentence is packed with the second into a
    chunk within the budget: it is not a chunk of its own. *)
Lemma oversized_sentence_packed_with_next :
  split_text_into_chunks uneven_count 5 (str_of "ab.cd.ef.")
  = [str_of "ab.cd."; str_of "ef."] /\
  In (str_of "ab.") (split_sentences (str_of "ab.cd.ef.")) /\
  (5 < Z.of_nat (uneven_count (str_of "ab.cd.ef.")))%Z /\
  (5 < Z.of_nat (uneven_count (str_of "ab.")))%Z /\
  ~ In (str_of "ab.")
      (split_text_into_chunks uneven_count 5 (str_of "ab.cd.ef.")).
Proof.
  split; [vm_compute; reflexivity|].
  split; [vm_compute; left; reflexivity|].
  split; [vm_compute; reflexivity|].
  split; [vm_compute; reflexivity|].
  vm_compute; intros [H | [H | []]]; discriminate.
Qed.

(** ** The split at blank lines *)

Lemma str_pair_ind (P : str -> Prop) :
  P [] -> (forall c, P [c]) ->
  (forall c c2 rest, P rest -> P (c2 :: rest) -> P (c :: c2 :: rest)) ->
  forall s, P s.
Proof.
  intros H0 H1 H2 s.
  assert (H : P s /\ forall c, P (c :: s)); [|tauto].
  induction s as [|d s [IHa IHb]]; [split; auto|].
  split; [apply IHb | intros c; apply H2; auto].
Qed.

Lemma contains_nlnl_occurs (s : str) :
  contains_nlnl s = true <-> exists a b, s = a ++ NL :: NL :: b.
Proof.
  induction s as [|c s IH]; simpl.
  - split; [discriminate | intros (a & b & H); destruct a; discriminate].
  - destruct s as [|c2 s].
    + split; [discriminate|].
      intros (a & b & H); destruct a as [|? [|? ?]]; discriminate.
    + rewrite orb_true_iff, andb_true_iff, IH; unfold char_eqb.
      rewrite !N.eqb_eq; split.
      * intros [[-> ->] | (a & b & ->)].
        -- exists [], s; reflexivity.
        -- exists (c :: a), b; reflexivity.
      * intros ([|x a] & b & H); simpl in H; inversion H; subst.
        -- left; auto.
        -- right; exists a, b; assumption.
Qed.

Lemma split_nlnl_not_nil (s : str) : split_nlnl s <> [].
Proof.
  destruct s as [|c [|c2 s]]; simpl; try discriminate.
  - destruct (_ && _); [discriminate|].
    destruct (match s with [] => _ | _ => _ end); discriminate.
Qed.

Lemma join_cons_first (sep : str) (c : char) (l : list str) :
  join sep (cons_first c l) = c :: join sep l.
Proof. destruct l as [|p [|q l]]; reflexivity. Qed.

Lemma join_cons (sep p : str) (l : list str) :
  l <> [] -> join sep (p :: l) = p ++ sep ++ join sep l.
Proof. destruct l; [congruence | reflexivity]. Qed.

Lemma split_nlnl_cons2 (c c2 : char) (rest : str) :
  split_nlnl (c :: c2 :: rest)
  = if char_eqb c NL && char_eqb c2 NL then [] :: split_nlnl rest
    else cons_first c (split_nlnl (c2 :: rest)).
Proof. reflexivity. Qed.

Lemma contains_nlnl_cons (c : char) (p : str) :
  contains_nlnl (c :: p)
  = match p with
    | c2 :: _ => char_eqb c NL && char_eqb c2 NL || contains_nlnl p
    | [] => false
    end.
Proof. reflexivity. Qed.

(** Putting the blank lines back between the pieces gives the text. *)
Lemma join_split_nlnl (s : str) : join [NL; NL] (split_nlnl s) = s.
Proof.
  induction s as [| c | c c2 rest IH1 IH2] using str_pair_ind;
    try reflexivity.
  rewrite split_nlnl_cons2; destruct (char_eqb c NL && char_eqb c2 NL) eqn:E.
  - apply andb_true_iff in E; unfold char_eqb in E.
    rewrite !N.eqb_eq in E; destruct E as [-> ->].
    rewrite join_cons by apply split_nlnl_not_nil.
    rewrite IH1; reflexivity.
  - rewrite join_cons_first, IH2; reflexivity.
Qed.

Lemma split_nlnl_none (s : str) :
  contains_nlnl s = false -> split_nlnl s = [s].
Proof.
  induction s as [| c | c c2 rest IH1 IH2] using str_pair_ind;
    try reflexivity.
  rewrite split_nlnl_cons2, contains_nlnl_cons; intros H.
  apply orb_false_iff in H; destruct H as [-> H].
  rewrite (IH2 H); reflexivity.
Qed.

(** A split that opens with an empty piece followed by more comes from a
    text that opens with a blank line. *)
Lemma split_nlnl_opens_empty (s : str) (q : str) (qs : list str) :
  split_nlnl s = [] :: q :: qs -> exists rest, s = NL :: NL :: rest.
Proof.
  destruct s as [|c [|c2 rest]]; simpl; try discriminate.
  destruct (char_eqb c NL && char_eqb c2 NL) eqn:E.
  - intros _; apply andb_true_iff in E; unfold char_eqb in E.
    rewrite !N.eqb_eq in E; destruct E as [-> ->]; eauto.
  - destruct (match rest with [] => _ | _ => _ end); discriminate.
Qed.

Lemma split_nlnl_head (s : str) (p : str) (ps : list str) :
  split_nlnl s = p :: ps -> p = [] \/ exists c t, s = c :: t /\ hd NL p = c.
Proof.
  destruct s as [|c [|c2 rest]]; simpl.
  - intros H; injection H as <- <-; auto.
  - intros H; injection H as <- <-; right; eauto.
  - destruct (char_eqb c NL && char_eqb c2 NL).
    + intros H; injection H as <- <-; auto.
    + destruct (match rest with [] => _ | _ => _ end);
        intros H; injection H as <- <-; right; eauto.
Qed.

(** No piece holds a blank line, and a piece that a blank line follows
    does not end with a line feed: the cuts are the leftmost ones. *)
Lemma split_nlnl_pieces (s : str) :
  Forall (fun p => contains_nlnl p = false) (split_nlnl s) /\
  Forall (fun p => ends_with_nl p = false) (removelast (split_nlnl s)).
Proof.
  induction s as [| c | c c2 rest IH1 IH2] using str_pair_ind.
  - simpl; auto.
  - simpl; auto.
  - rewrite split_nlnl_cons2.
    destruct (char_eqb c NL && char_eqb c2 NL) eqn:E.
    + destruct IH1 as [Ha Hb]; split; [constructor; auto|].
      pose proof (split_nlnl_not_nil rest) as Hne.
      destruct (split_nlnl rest) as [|p ps] eqn:Er; [congruence|].
      change (removelast ([] :: p :: ps)) with ([] :: removelast (p :: ps)).
      constructor; auto.
    + destruct IH2 as [Ha Hb].
      destruct (split_nlnl (c2 :: rest)) as [|p ps] eqn:Er;
        [exfalso; revert Er; apply split_nlnl_not_nil|].
      cbn [cons_first]; split.
      * inversion Ha as [|? ? Hp Hps]; subst; constructor; [|exact Hps].
        rewrite contains_nlnl_cons; destruct p as [|d p]; [reflexivity|].
        rewrite Hp, orb_false_r.
        destruct (split_nlnl_head _ _ _ Er) as [? | (x & t & Hx & Hd)];
          [discriminate|].
        injection Hx as <- <-; simpl in Hd; subst d; exact E.
      * destruct ps as [|q qs]; [constructor|].
        change (removelast ((c :: p) :: q :: qs))
          with ((c :: p) :: removelast (q :: qs)).
        change (removelast (p :: q :: qs))
          with (p :: removelast (q :: qs)) in Hb.
        inversion Hb as [|? ? Hp Hps]; subst; constructor; [|exact Hps].
        destruct p as [|d p].
        -- destruct (split_nlnl_opens_empty _ _ _ Er) as (r & Hr).
           injection Hr as -> ->; unfold ends_with_nl; simpl.
           rewrite andb_true_r in E; exact E.
        -- revert Hp; unfold ends_with_nl; simpl.
           destruct (rev p ++ [d]) eqn:Ed;
             [destruct (rev p); discriminate | simpl; auto].
Qed.

(** The loop skips the blank pieces: it runs on the paragraphs. *)
Lemma assemble_skips_blank (count : str -> nat) (max_tokens : Z)
  (l : list str) :
  assemble count max_tokens l
  = assemble count max_tokens (filter (fun p => negb (is_blank p)) l).
Proof.
  unfold assemble; generalize (@nil str, @nil char) as st.
  induction l as [|p l IH]; intros st; simpl; [reflexivity|].
  destruct (is_blank p) eqn:E; simpl; [|apply IH].
  rewrite <- IH; do 2 f_equal.
  destruct st; unfold paragraph_step; rewrite E; reflexivity.
Qed.

(** C8, as the code has it: the split cuts the text at each occurrence
    of exactly two line feeds, the leftmost first and none overlapping
    another (the pieces with a blank line between each two are the text
    again, no piece holds two line feeds in a row, and no piece that a cut
    follows ends with a line feed, so a third line feed of a run opens the
    next piece); the paragraphs are the pieces that are not white space
    only, and they are what the assembler packs; a text without two line
    feeds in a row is its only paragraph, when it is not blank. *)
Theorem boundary_splitter_cuts_at_two_line_feeds :
  forall text : str,
    join [NL; NL] (split_nlnl text) = text /\
    Forall (fun p => contains_nlnl p = false) (split_nlnl text) /\
    Forall (fun p => ends_with_nl p = false) (removelast (split_nlnl text)) /\
    paragraphs_of text
    = filter (fun p => negb (is_blank p)) (split_nlnl text) /\
    (forall (count : str -> nat) (max_tokens : Z),
       split_text_into_chunks count max_tokens text
       = assemble count max_tokens (paragraphs_of text)) /\
    (contains_nlnl text = false ->
     paragraphs_of text = if is_blank text then [] else [text]).
Proof.
  intros text; split; [apply join_split_nlnl|].
  split; [apply split_nlnl_pieces|]; split; [apply split_nlnl_pieces|].
  split; [reflexivity|]; split.
  - intros count max_tokens; apply assemble_skips_blank.
  - intros H; unfold paragraphs_of; rewrite (split_nlnl_none text H); simpl.
    destruct (is_blank text); reflexivity.
Qed.

(** The theorem at a text of one line. *)
Lemma boundary_splitter_witness :
  paragraphs_of (str_of "one line") = [str_of "one line"].
Proof.
  apply (proj2 (proj2 (proj2 (proj2 (proj2
           (boundary_splitter_cuts_at_two_line_feeds (str_of "one line"))))))).
  vm_compute; reflexivity.
Defined.

(** C8, as the specification words it, fails on the code: with three
    line feeds between two words the code keeps the third at the head of
    the second paragraph, where a boundary of two or more line breaks
    would take it; and the empty text, which has no blank line, has no
    paragraph at all. *)
Lemma boundary_splitter_three_line_feeds :
  paragraphs_of (str_of "a" ++ [NL; NL; NL] ++ str_of "b")
  = [str_of "a"; NL :: str_of "b"] /\
  spec_paragraphs (str_of "a" ++ [NL; NL; NL] ++ str_of "b")
  = [str_of "a"; str_of "b"] /\
  paragraphs_of (str_of "a" ++ [NL; NL; NL] ++ str_of "b")
  <> spec_paragraphs (str_of "a" ++ [NL; NL; NL] ++ str_of "b") /\
  contains_nlnl [] = false /\
  paragraphs_of [] = [].
Proof.
  repeat split; try (vm_compute; reflexivity).
  vm_compute; discriminate.
Qed.

(** C4: a paragraph that is one sentence (no sentence mark before its
    last character), not blank and over the budget, is one chunk, the
    whole paragraph: alone it gives exactly that chunk, and in any state
    of the loop it closes the buffer and becomes the new buffer as it
    is. *)
Theorem oversized_single_sentence_one_chunk :
  forall (count : str -> nat) (max_tokens : Z) (p : str),
    is_blank p = false ->
    single_sentence p = true ->
    (max_tokens < Z.of_nat (count p))%Z ->
    assemble count max_tokens [p] = [p] /\
    (contains_nlnl p = false ->
     split_text_into_chunks count max_tokens p = [p]) /\
    (forall (chunks : list str) (current_chunk : str),
       paragraph_step count max_tokens (chunks, current_chunk) p
       = (flush chunks current_chunk, p)).
Proof.
  intros count max_tokens p Hb Hs Hw; apply within_budget_false in Hw.
  assert (Ha : assemble count max_tokens [p] = [p]).
  { unfold assemble; cbn [fold_left].
    rewrite single_sentence_step by assumption.
    unfold flush; simpl.
    apply not_blank_not_nil, truthy_true in Hb; rewrite Hb; reflexivity. }
  split; [exact Ha|]; split.
  - intros Hn; unfold split_text_into_chunks.
    rewrite (split_nlnl_none p Hn); exact Ha.
  - intros chunks cur; apply single_sentence_step; assumption.
Qed.

(** The theorem at a sentence of twelve characters, tokens counted as
    characters, five to a chunk. *)
Lemma oversized_single_sentence_witness :
  assemble (@length char) 5 [str_of "Hello world."] = [str_of "Hello world."].
Proof.
  refine (proj1 (oversized_single_sentence_one_chunk (@length char) 5
                   (str_of "Hello world.") _ _ _)).
  - vm_compute; reflexivity.
  - vm_compute; reflexivity.
  - vm_compute; reflexivity.
Defined.

(** ** The reference marker *)

Lemma matches_here_word (pattern s : str) :
  matches_here pattern s = true
  <-> exists word after, s = word ++ after /\ same_ignoring_case pattern word.
Proof.
  unfold same_ignoring_case; revert s.
  induction pattern as [|p pattern IH]; intros s; simpl.
  - split; [intros _; exists [], s; split; [reflexivity | constructor]|auto].
  - destruct s as [|c s].
    + split; [discriminate|].
      intros (word & after & H & Hw); inversion Hw; subst; discriminate.
    + rewrite andb_true_iff, IH; split.
      * intros (Hc & word & after & -> & Hw).
        exists (c :: word), after; split; [reflexivity|].
        constructor; assumption.
      * intros (word & after & H & Hw); inversion Hw; subst.
        injection H as <- ->; split; [assumption|]; eauto.
Qed.

Lemma occurs_at_0 (pattern s : str) :
  occurs_at pattern 0 s <-> matches_here pattern s = true.
Proof.
  rewrite matches_here_word; unfold occurs_at; split.
  - intros (before & word & after & -> & Hl & Hw).
    destruct before; [|discriminate]; exists word, after; auto.
  - intros (word & after & -> & Hw); exists [], word, after; auto.
Qed.

Lemma occurs_at_S (pattern : str) (i : nat) (c : char) (s : str) :
  occurs_at pattern (S i) (c :: s) <-> occurs_at pattern i s.
Proof.
  unfold occurs_at; split.
  - intros ([|b before] & word & after & H & Hl & Hw); [discriminate|].
    simpl in *; injection H as <- ->; injection Hl as <-.
    exists before, word, after; auto.
  - intros (before & word & after & -> & <- & Hw).
    exists (c :: before), word, after; auto.
Qed.

Lemma occurs_at_S_nil (pattern : str) (i : nat) : ~ occurs_at pattern (S i) [].
Proof.
  intros ([|b before] & word & after & H & Hl & Hw); discriminate.
Qed.

Lemma re_search_some (pattern s : str) (i : nat) :
  re_search pattern s = Some i ->
  occurs_at pattern i s /\ forall j, j < i -> ~ occurs_at pattern j s.
Proof.
  revert i; induction s as [|c s IH]; intros i; simpl.
  - destruct (matches_here pattern []) eqn:E; [|discriminate].
    intros H; injection H as <-; split; [apply occurs_at_0; exact E|].
    intros j Hj; lia.
  - destruct (matches_here pattern (c :: s)) eqn:E.
    + intros H; injection H as <-; split; [apply occurs_at_0; exact E|].
      intros j Hj; lia.
    + destruct (re_search pattern s) as [k|]; [|discriminate].
      intros H; injection H as <-; destruct (IH k eq_refl) as [Ho Hf].
      split; [apply occurs_at_S; exact Ho|].
      intros [|j] Hj.
      * rewrite occurs_at_0, E; discriminate.
      * rewrite occurs_at_S; apply Hf; lia.
Qed.

Lemma re_search_none (pattern s : str) :
  re_search pattern s = None -> forall i, ~ occurs_at pattern i s.
Proof.
  induction s as [|c s IH]; simpl.
  - destruct (matches_here pattern []) eqn:E; [discriminate|].
    intros _ [|i]; [rewrite occurs_at_0, E; discriminate|].
    apply occurs_at_S_nil.
  - destruct (matches_here pattern (c :: s)) eqn:E; [discriminate|].
    destruct (re_search pattern s) as [k|]; [discriminate|].
    intros _ [|i]; [rewrite occurs_at_0, E; discriminate|].
    rewrite occurs_at_S; apply IH; reflexivity.
Qed.

Lemma remove_references_prefix (text : str) :
  exists removed, text = remove_references_section text ++ removed.
Proof.
  unfold remove_references_section.
  destruct (re_search REFERENCES text) as [k|].
  - exists (skipn k text); symmetry; apply firstn_skipn.
  - exists []; symmetry; apply app_nil_r.
Qed.

(** C10: the result is a prefix of the text; it is the text when the
    word does not occur in it, in any mix of cases, and otherwise the text
    before the first occurrence, wherever that is: in the middle of a
    sentence, inside a longer word. *)
Theorem remove_references_cuts_at_first_occurrence :
  forall text : str,
    (exists removed, text = remove_references_section text ++ removed) /\
    ((forall i, ~ occurs_at REFERENCES i text) ->
     remove_references_section text = text) /\
    (forall i,
       occurs_at REFERENCES i text ->
       (forall j, j < i -> ~ occurs_at REFERENCES j text) ->
       remove_references_section text = firstn i text) /\
    remove_references_section (str_of "as the References show, we")
    = str_of "as the " /\
    remove_references_section (str_of "our preferences and REFERENCES")
    = str_of "our p".
Proof.
  intros text; split; [apply remove_references_prefix|].
  unfold remove_references_section; split; [|split].
  - intros Hnone; destruct (re_search REFERENCES text) as [k|] eqn:E;
      [|reflexivity].
    exfalso; apply (Hnone k), (re_search_some _ _ _ E).
  - intros i Hi Hfirst.
    destruct (re_search REFERENCES text) as [k|] eqn:E.
    + destruct (re_search_some _ _ _ E) as [Hk Hkf].
      destruct (Nat.lt_trichotomy i k) as [H|[->|H]]; [|reflexivity|].
      * exfalso; apply (Hkf i H Hi).
      * exfalso; apply (Hfirst k H Hk).
    + exfalso; apply (re_search_none _ _ E i Hi).
  - split; vm_compute; reflexivity.
Qed.

(** The theorem at a text in which the word first occurs at index 7. *)
Lemma remove_references_witness :
  remove_references_section (str_of "as the References show, we")
  = firstn 7 (str_of "as the References show, we").
Proof.
  apply (proj1 (proj2 (proj2 (remove_references_cuts_at_first_occurrence
                                (str_of "as the References show, we"))))).
  - exists (str_of "as the "), (str_of "References"), (str_of " show, we").
    split; [reflexivity|]; split; [reflexivity|].
    repeat constructor.
  - intros j Hj Ho.
    assert (Hm : forall k, k < 7 ->
              matches_here REFERENCES
                (skipn k (str_of "as the References show, we")) = false).
    { intros k Hk.
      do 7 (destruct k as [|k]; [vm_compute; reflexivity|]); lia. }
    specialize (Hm j Hj); apply not_true_iff_false in Hm; apply Hm.
    destruct Ho as (before & word & after & Ht & Hl & Hw).
    apply matches_here_word; exists word, after; split; [|exact Hw].
    rewrite Ht, <- Hl, skipn_app, skipn_all, Nat.sub_diag; reflexivity.
Defined.

(** ** The overlap search *)

Lemma find_overlap_some (n : nat) (result chunk : str) (L : nat) :
  find_overlap n result chunk = Some L ->
  1 <= L <= n /\
  last_chars L result = firstn L chunk /\
  forall L', L < L' <= n -> last_chars L' result <> firstn L' chunk.
Proof.
  induction n as [|n IH]; simpl; [discriminate|].
  destruct (str_eqb _ _) eqn:E.
  - intros H; injection H as <-; apply str_eqb_eq in E.
    repeat split; try lia; auto; intros; lia.
  - intros H; destruct (IH H) as (Hb & Hm & Hmax).
    repeat split; try lia; auto.
    intros L' HL'; destruct (Nat.eq_dec L' (S n)) as [->|];
      [apply str_eqb_neq; exact E | apply Hmax; lia].
Qed.

Lemma find_overlap_none (n : nat) (result chunk : str) :
  find_overlap n result chunk = None ->
  forall L', 1 <= L' <= n -> last_chars L' result <> firstn L' chunk.
Proof.
  induction n as [|n IH]; simpl; [intros; lia|].
  destruct (str_eqb _ _) eqn:E; [discriminate|].
  intros H L' HL'; destruct (Nat.eq_dec L' (S n)) as [->|];
    [apply str_eqb_neq; exact E | apply IH; auto; lia].
Qed.

(** The loop over the indices is a fold of [merge_one] over the chunks
    after the first. *)
Lemma merge_fold_indices (k : Z) (rest before : list str)
  (st : str * list merge_event) :
  fst (fold_left (merge_step k (before ++ rest))
         (seq (length before) (length rest)) st)
  = fold_left (merge_one k) rest (fst st).
Proof.
  revert before st; induction rest as [|c rest IH]; intros before st;
    [reflexivity|].
  cbn [length seq fold_left].
  replace (before ++ c :: rest) with ((before ++ [c]) ++ rest)
    by (rewrite <- app_assoc; reflexivity).
  replace (S (length before)) with (length (before ++ [c]))
    by (rewrite length_app; simpl; lia).
  rewrite IH; f_equal.
  destruct st as [result log]; unfold merge_step, merge_one.
  rewrite <- app_assoc; cbn [app].
  rewrite app_nth2, Nat.sub_diag by lia; cbn [nth].
  destruct (find_overlap _ _ _); reflexivity.
Qed.

Lemma merge_is_fold (k : Z) (c0 : str) (rest : list str) :
  merge_chunks_with_overlap (c0 :: rest) k = fold_left (merge_one k) rest c0.
Proof.
  unfold merge_chunks_with_overlap, merge_chunks_with_overlap_log.
  destruct rest as [|c1 rest]; [reflexivity|].
  change (c0 :: c1 :: rest) with ([c0] ++ c1 :: rest).
  replace (length ([c0] ++ c1 :: rest) - 1) with (length (c1 :: rest))
    by (simpl; lia).
  apply (merge_fold_indices k (c1 :: rest) [c0] (c0, [])).
Qed.

Lemma merge_snoc (k : Z) (c0 : str) (cs : list str) (c : str) :
  merge_chunks_with_overlap (c0 :: cs ++ [c]) k
  = merge_one k (merge_chunks_with_overlap (c0 :: cs) k) c.
Proof.
  rewrite !merge_is_fold, fold_left_app; reflexivity.
Qed.

(** What one step appends. *)
Lemma merge_one_longest (k : Z) (acc chunk : str) :
  let bound := Z.min k (Z.min (Z.of_nat (length acc))
                               (Z.of_nat (length chunk))) in
  exists L,
    merge_one k acc chunk = acc ++ skipn L chunk /\
    (L = 0 \/
     (1 <= L /\ (Z.of_nat L <= bound)%Z /\
      exists before, acc = before ++ firstn L chunk)) /\
    (forall L', L < L' -> (Z.of_nat L' <= bound)%Z ->
                ~ exists before, acc = before ++ firstn L' chunk).
Proof.
  intros bound; unfold merge_one, max_check_len; fold bound.
  assert (Hends : forall n, 1 <= n -> (Z.of_nat n <= bound)%Z ->
            (last_chars n acc = firstn n chunk <->
             exists before, acc = before ++ firstn n chunk)).
  { intros n Hn Hb; apply last_chars_ends; [|unfold bound in Hb; lia].
    apply firstn_length_le; unfold bound in Hb; lia. }
  destruct (find_overlap _ _ _) as [L|] eqn:E.
  - apply find_overlap_some in E; destruct E as (HL & Hm & Hmax).
    exists L; split; [reflexivity|]; split.
    + right; split; [lia|]; split; [lia|]; apply Hends; [lia|lia|exact Hm].
    + intros L' H1 H2 H3; apply (Hmax L'); [lia|].
      apply Hends; [lia|lia|exact H3].
  - exists 0; split; [reflexivity|]; split; [left; reflexivity|].
    intros L' H1 H2 H3; apply (find_overlap_none _ _ _ E L'); [lia|].
    apply Hends; [lia|lia|exact H3].
Qed.

(** C1: the merge starts from the first chunk; for each further chunk it
    takes the greatest [L] between 1 and
    [min(max_overlap_chars, len(accumulator), len(chunk))] such that the
    accumulator ends with the first [L] characters of the chunk, and
    appends the chunk without these [L] characters ([L = 0], the whole
    chunk, when there is no such length).  The two examples of the
    specification evaluate as it says. *)
Theorem merge_chunks_longest_overlap :
  (forall (k : Z) (c0 : str), merge_chunks_with_overlap [c0] k = c0) /\
  (forall (k : Z) (c0 : str) (cs : list str) (chunk : str),
     let acc := merge_chunks_with_overlap (c0 :: cs) k in
     let bound := Z.min k (Z.min (Z.of_nat (length acc))
                                 (Z.of_nat (length chunk))) in
     exists L,
       merge_chunks_with_overlap (c0 :: cs ++ [chunk]) k
       = acc ++ skipn L chunk /\
       (L = 0 \/
        (1 <= L /\ (Z.of_nat L <= bound)%Z /\
         exists before, acc = before ++ firstn L chunk)) /\
       (forall L', L < L' -> (Z.of_nat L' <= bound)%Z ->
                   ~ exists before, acc = before ++ firstn L' chunk)) /\
  merge_chunks_with_overlap
    [str_of "The quick brown fox"; str_of " brown fox jumps"] 20
  = str_of "The quick brown fox jumps" /\
  (forall k : Z,
     merge_chunks_with_overlap [str_of "abc"; str_of "xyz"] k
     = str_of "abcxyz").
Proof.
  split; [reflexivity|]; split; [|split].
  - intros k c0 cs chunk acc bound; unfold acc, bound.
    rewrite merge_snoc; apply merge_one_longest.
  - vm_compute; reflexivity.
  - intros k; rewrite merge_is_fold; cbn [fold_left].
    destruct (merge_one_longest k (str_of "abc") (str_of "xyz"))
      as (L & -> & [->|(H1 & H2 & before & E)] & _); [reflexivity|].
    exfalso; revert H2 E; cbn; intros H2 E.
    assert (HL : L = 1 \/ L = 2 \/ L = 3) by lia.
    apply (f_equal (@rev char)) in E; rewrite rev_app_distr in E.
    destruct HL as [->|[->| ->]]; cbn in E; discriminate.
Qed.

(** C9: no chunk gives the empty text and one chunk gives that chunk,
    whatever the overlap bound; in both cases the loop is not entered, so
    nothing is searched and nothing is logged. *)
Theorem merge_chunks_empty_and_single :
  forall (k : Z),
    merge_chunks_with_overlap [] k = [] /\
    merge_chunks_with_overlap_log [] k = ([], []) /\
    forall c : str,
      merge_chunks_with_overlap [c] k = c /\
      merge_chunks_with_overlap_log [c] k = (c, []).
Proof.
  intros k; repeat split.
Qed.

(** ** What the merge keeps *)

Lemma merge_one_extends (k : Z) (acc chunk : str) :
  exists t, merge_one k acc chunk = acc ++ t.
Proof.
  unfold merge_one; destruct (find_overlap _ _ _); eauto.
Qed.

(** After a chunk is merged the text ends with that chunk, whole. *)
Lemma merge_one_ends (k : Z) (acc chunk : str) :
  exists a, merge_one k acc chunk = a ++ chunk.
Proof.
  destruct (merge_one_longest k acc chunk)
    as (L & -> & [-> | (_ & _ & before & E)] & _).
  - exists acc; reflexivity.
  - exists before; rewrite E at 1.
    rewrite <- app_assoc, firstn_skipn; reflexivity.
Qed.

(** A merge step drops at most [k] characters of the chunk. *)
Lemma merge_one_length (k : Z) (acc chunk : str) :
  (Z.of_nat (length acc + length chunk)
   <= Z.of_nat (length (merge_one k acc chunk)) + Z.max 0 k)%Z.
Proof.
  destruct (merge_one_longest k acc chunk)
    as (L & -> & [-> | (HL & Hb & _)] & _);
    rewrite length_app, length_skipn; lia.
Qed.

Lemma merge_fold_extends (k : Z) (l : list str) (acc : str) :
  exists t, fold_left (merge_one k) l acc = acc ++ t.
Proof.
  revert acc; induction l as [|c l IH]; intros acc; simpl.
  - exists []; symmetry; apply app_nil_r.
  - destruct (merge_one_extends k acc c) as [t Ht].
    destruct (IH (merge_one k acc c)) as [t' ->]; rewrite Ht.
    exists (t ++ t'); rewrite app_assoc; reflexivity.
Qed.

Lemma merge_fold_length (k : Z) (l : list str) (acc : str) :
  (Z.of_nat (length acc + length (concat l))
   <= Z.of_nat (length (fold_left (merge_one k) l acc))
      + Z.of_nat (length l) * Z.max 0 k)%Z.
Proof.
  revert acc; induction l as [|c l IH]; intros acc; [simpl; lia|].
  cbn [fold_left concat length].
  specialize (IH (merge_one k acc c)).
  pose proof (merge_one_length k acc c).
  rewrite length_app, Nat2Z.inj_succ, Z.mul_succ_l; lia.
Qed.

(** Each chunk occurs whole in the merged text, the chunks in their
    order: the merge of the chunks up to [c] ends with [c], and the merge
    of all the chunks starts with it. *)
Lemma merge_keeps_chunks (k : Z) (l1 : list str) (c : str) (l2 : list str) :
  exists a b,
    merge_chunks_with_overlap (l1 ++ [c]) k = a ++ c /\
    merge_chunks_with_overlap (l1 ++ c :: l2) k = (a ++ c) ++ b.
Proof.
  destruct l1 as [|c0 l1]; simpl.
  - rewrite !merge_is_fold; simpl.
    destruct (merge_fold_extends k l2 c) as [t ->]; exists [], t; auto.
  - rewrite !merge_is_fold, !fold_left_app; simpl.
    destruct (merge_one_ends k (fold_left (merge_one k) l1 c0) c) as [a Ha].
    destruct (merge_fold_extends k l2
                (merge_one k (fold_left (merge_one k) l1 c0) c)) as [t ->].
    exists a, t; rewrite Ha; auto.
Qed.

(** ** The pipeline *)

Lemma clean_chunks_map (llm : str -> option str) (chunks : list str) :
  clean_chunks llm chunks
  = (map (clean_text_chunk_with_llm llm) chunks, chunks).
Proof.
  unfold clean_chunks.
  assert (H : forall l a b,
            fold_left
              (fun (acc : list str * list str) chunk =>
                 (fst acc ++ [clean_text_chunk_with_llm llm chunk],
                  snd acc ++ [chunk])) l (a, b)
            = (a ++ map (clean_text_chunk_with_llm llm) l, b ++ l)).
  { induction l as [|c l IH]; intros a b; simpl.
    - rewrite !app_nil_r; reflexivity.
    - rewrite IH, <- !app_assoc; reflexivity. }
  apply (H chunks [] []).
Qed.

Lemma remove_references_nil : remove_references_section [] = [].
Proof. reflexivity. Qed.

(** The pipeline is the merge of the cleaned chunks, and the model is
    called once on each chunk, in order. *)
Lemma extract_text_from_pdf_log_eq (llm : str -> option str)
  (count : str -> nat) (raw_text : str) (max_tokens : Z) :
  extract_text_from_pdf_log llm count raw_text max_tokens
  = (merge_chunks_with_overlap
       (map (clean_text_chunk_with_llm llm)
          (split_text_into_chunks count max_tokens
             (remove_references_section raw_text))) 100,
     split_text_into_chunks count max_tokens
       (remove_references_section raw_text)).
Proof.
  unfold extract_text_from_pdf_log; destruct raw_text as [|c t];
    [reflexivity|].
  cbn [truthy]; rewrite clean_chunks_map; reflexivity.
Qed.

Lemma map_clean_fails (llm : str -> option str) (chunks : list str) :
  (forall chunk, llm chunk = None) ->
  map (clean_text_chunk_with_llm llm) chunks = chunks.
Proof.
  intros H; rewrite <- (map_id chunks) at 2; apply map_ext.
  intros c; unfold clean_text_chunk_with_llm; rewrite H; reflexivity.
Qed.

Lemma in_join (sep : str) (l : list str) (p : str) (c : char) :
  In p l -> In c p -> In c (join sep l).
Proof.
  induction l as [|q l IH]; [intros []|].
  intros [-> | Hp] Hc; destruct l as [|r l]; simpl.
  - exact Hc.
  - apply in_or_app; left; exact Hc.
  - destruct Hp.
  - apply in_or_app; right; apply in_or_app; right; apply IH; assumption.
Qed.

Lemma split_nlnl_blank (text : str) :
  forallb isspace text = true -> paragraphs_of text = [].
Proof.
  intros H; unfold paragraphs_of.
  rewrite forallb_forall in H.
  assert (Hall : forall p, In p (split_nlnl text) -> is_blank p = true).
  { intros p Hp; apply is_blank_true, forallb_forall; intros c Hc.
    apply H; rewrite <- (join_split_nlnl text).
    apply (in_join _ _ p); assumption. }
  induction (split_nlnl text) as [|p l IH]; [reflexivity|]; simpl.
  rewrite (Hall p) by (left; reflexivity); simpl.
  apply IH; intros q Hq; apply Hall; right; exact Hq.
Qed.

Lemma split_text_blank (count : str -> nat) (max_tokens : Z) (text : str) :
  forallb isspace text = true ->
  split_text_into_chunks count max_tokens text = [].
Proof.
  intros H; unfold split_text_into_chunks.
  rewrite assemble_skips_blank.
  change (filter _ (split_nlnl text)) with (paragraphs_of text).
  rewrite (split_nlnl_blank text H); reflexivity.
Qed.

Lemma remove_references_blank (text : str) :
  forallb isspace text = true ->
  forallb isspace (remove_references_section text) = true.
Proof.
  destruct (remove_references_prefix text) as [removed E].
  intros H; rewrite E, forallb_app in H.
  apply andb_true_iff in H; tauto.
Qed.

(** The chunks are not empty, and there is one as soon as a paragraph is
    not blank. *)
Lemma segments_of_paragraph_not_nil (count : str -> nat) (max_tokens : Z)
  (p : str) :
  is_blank p = false -> segments_of_paragraph count max_tokens p <> [].
Proof.
  intros Hb; unfold segments_of_paragraph; rewrite Hb.
  destruct (negb _); [|discriminate].
  apply is_blank_false in Hb; destruct Hb as (c & Hc & Hs).
  rewrite <- (concat_split_sentences p) in Hc.
  apply in_concat in Hc; destruct Hc as (s & Hin & Hcs).
  assert (Hf : In s (filter (fun s => negb (is_blank s)) (split_sentences p))).
  { apply filter_In; split; [exact Hin|].
    apply negb_true_iff, is_blank_false; eauto. }
  destruct (filter _ _); [destruct Hf | discriminate].
Qed.

Lemma assemble_first_chunk (count : str -> nat) (max_tokens : Z)
  (ps : list str) (p : str) :
  In p ps -> is_blank p = false ->
  exists c rest, assemble count max_tokens ps = c :: rest /\ c <> [].
Proof.
  intros Hp Hb.
  destruct (assemble_groups count max_tokens ps) as (groups & Hc & Hg & ->).
  assert (Hne : segments_of count max_tokens ps <> []).
  { unfold segments_of; intros E.
    apply (segments_of_paragraph_not_nil count max_tokens p Hb).
    destruct (segments_of_paragraph count max_tokens p) as [|g l] eqn:Ep;
      [reflexivity|].
    assert (Hin : In g (flat_map (segments_of_paragraph count max_tokens) ps))
      by (apply in_flat_map; exists p; rewrite Ep; simpl; auto).
    rewrite E in Hin; destruct Hin. }
  destruct groups as [|g groups]; [simpl in Hc; congruence|].
  exists (render g), (map render groups); split; [reflexivity|].
  inversion Hg; subst; apply render_not_nil; [assumption|].
  pose proof (segments_text_not_nil count max_tokens ps) as Ht.
  rewrite <- Hc in Ht; simpl in Ht; apply Forall_app in Ht; tauto.
Qed.

(** C6: the pipeline is the merge of the cleaned chunks, whatever the
    model does; a chunk on which the call fails is kept as it is; when
    the call fails on every chunk the result is the merge of the chunks as
    they were cut, and it is not empty as soon as the text, after the
    references are removed, has a paragraph that is not blank. *)
Theorem transform_failure_keeps_chunk :
  forall (llm : str -> option str) (count : str -> nat) (max_tokens : Z)
         (raw_text : str),
    extract_text_from_pdf llm count raw_text max_tokens
    = merge_chunks_with_overlap
        (map (clean_text_chunk_with_llm llm)
           (split_text_into_chunks count max_tokens
              (remove_references_section raw_text))) 100 /\
    (forall chunk : str,
       llm chunk = None -> clean_text_chunk_with_llm llm chunk = chunk) /\
    ((forall chunk : str, llm chunk = None) ->
     extract_text_from_pdf llm count raw_text max_tokens
     = merge_chunks_with_overlap
         (split_text_into_chunks count max_tokens
            (remove_references_section raw_text)) 100 /\
     (paragraphs_of (remove_references_section raw_text) <> [] ->
      extract_text_from_pdf llm count raw_text max_tokens <> [])).
Proof.
  intros llm count max_tokens raw_text.
  unfold extract_text_from_pdf; rewrite extract_text_from_pdf_log_eq.
  cbn [fst]; split; [reflexivity|]; split.
  - intros chunk H; unfold clean_text_chunk_with_llm; rewrite H; reflexivity.
  - intros H; rewrite (map_clean_fails llm _ H); split; [reflexivity|].
    intros Hp; unfold split_text_into_chunks.
    destruct (paragraphs_of _) as [|p ps] eqn:Eps; [congruence|].
    assert (Hin : In p (paragraphs_of (remove_references_section raw_text)))
      by (rewrite Eps; left; reflexivity).
    apply in_paragraphs_of in Hin; destruct Hin as [Hin Hb].
    destruct (assemble_first_chunk count max_tokens _ p Hin Hb)
      as (c & rest & -> & Hc).
    rewrite merge_is_fold.
    destruct (merge_fold_extends 100 rest c) as [t ->].
    destruct c; [congruence | discriminate].
Qed.

(** The theorem at a model that fails on every chunk. *)
Lemma transform_failure_witness :
  extract_text_from_pdf (fun _ => None) (@length char)
    (str_of "Hello world. Hi.") 5
  = merge_chunks_with_overlap
      (split_text_into_chunks (@length char) 5
         (remove_references_section (str_of "Hello world. Hi."))) 100.
Proof.
  refine (proj1 (proj2 (proj2 (transform_failure_keeps_chunk
            (fun _ => None) (@length char) 5 (str_of "Hello world. Hi."))) _)).
  intros chunk; reflexivity.
Defined.

(** C7: on the empty text, and on a text of white space only, the
    pipeline returns the empty text and calls the model on no chunk. *)
Theorem empty_input_empty_output :
  forall (llm : str -> option str) (count : str -> nat) (max_tokens : Z),
    extract_text_from_pdf_log llm count [] max_tokens = ([], []) /\
    extract_text_from_pdf llm count [] max_tokens = [] /\
    (forall raw_text : str,
       forallb isspace raw_text = true ->
       extract_text_from_pdf_log llm count raw_text max_tokens = ([], []) /\
       extract_text_from_pdf llm count raw_text max_tokens = []).
Proof.
  intros llm count max_tokens; split; [reflexivity|]; split; [reflexivity|].
  intros raw_text H; unfold extract_text_from_pdf.
  rewrite extract_text_from_pdf_log_eq.
  rewrite (split_text_blank count max_tokens _
             (remove_references_blank raw_text H)).
  split; reflexivity.
Qed.

(** The theorem at a text of spaces and line feeds. *)
Lemma empty_input_witness :
  extract_text_from_pdf_log (fun c => Some c) (@length char)
    (str_of "  " ++ [NL; NL] ++ str_of " ") 5 = ([], []).
Proof.
  refine (proj1 (proj2 (proj2 (empty_input_empty_output
            (fun c => Some c) (@length char) 5)) _ _)).
  vm_compute; reflexivity.
Defined.

(** ** The pipeline under a model that returns each chunk as it is *)

Lemma non_whitespace_rev (s : str) :
  non_whitespace (rev s) = rev (non_whitespace s).
Proof.
  induction s as [|c s IH]; [reflexivity|]; simpl.
  rewrite non_whitespace_app, IH; simpl.
  destruct (isspace c); simpl; [apply app_nil_r | reflexivity].
Qed.

Lemma non_whitespace_lstrip (s : str) :
  non_whitespace (lstrip s) = non_whitespace s.
Proof.
  induction s as [|c s IH]; [reflexivity|]; simpl.
  destruct (isspace c) eqn:E; simpl; [exact IH | rewrite E; reflexivity].
Qed.

(** Trimming removes white space only. *)
Lemma non_whitespace_strip (s : str) :
  non_whitespace (strip s) = non_whitespace s.
Proof.
  unfold strip, rstrip.
  rewrite non_whitespace_rev, non_whitespace_lstrip, non_whitespace_rev.
  rewrite rev_involutive; apply non_whitespace_lstrip.
Qed.

Lemma non_whitespace_join (l : list str) :
  non_whitespace (join [NL; NL] l) = non_whitespace (concat l).
Proof.
  induction l as [|p l IH]; [reflexivity|].
  destruct l as [|q l]; [simpl; rewrite app_nil_r; reflexivity|].
  rewrite join_cons by discriminate.
  change (concat (p :: q :: l)) with (p ++ concat (q :: l)).
  rewrite !non_whitespace_app, IH; reflexivity.
Qed.

Lemma non_whitespace_chunks (count : str -> nat) (max_tokens : Z)
  (text : str) :
  non_whitespace
    (concat (map strip (split_text_into_chunks count max_tokens text)))
  = non_whitespace text.
Proof.
  transitivity
    (non_whitespace (concat (split_text_into_chunks count max_tokens text))).
  - induction (split_text_into_chunks count max_tokens text) as [|c l IH];
      [reflexivity|]; simpl.
    rewrite !non_whitespace_app, IH, non_whitespace_strip; reflexivity.
  - unfold split_text_into_chunks.
    destruct (assemble_keeps_non_whitespace count max_tokens
                (split_nlnl text)) as [_ ->].
    rewrite <- non_whitespace_join, join_split_nlnl; reflexivity.
Qed.

(** C3, as the code has it: under a model that returns each chunk as it
    is, the pipeline is the merge of the trimmed chunks; these hold the
    characters of the text (after the references are removed) that are
    not white space, all of them and in order; each of them occurs whole
    in the output, in the order of the chunks; and the merge drops at
    most 100 characters at each boundary, those with which a chunk repeats
    the end of the text merged so far. *)
Theorem identity_pipeline_keeps_chunks :
  forall (count : str -> nat) (max_tokens : Z) (raw_text : str),
    let text := remove_references_section raw_text in
    let chunks := map strip (split_text_into_chunks count max_tokens text) in
    let output :=
      extract_text_from_pdf (fun c => Some c) count raw_text max_tokens in
    output = merge_chunks_with_overlap chunks 100 /\
    non_whitespace (concat chunks) = non_whitespace text /\
    (forall (l1 : list str) (c : str) (l2 : list str),
       chunks = l1 ++ c :: l2 ->
       exists a b,
         merge_chunks_with_overlap (l1 ++ [c]) 100 = a ++ c /\
         output = (a ++ c) ++ b) /\
    (Z.of_nat (length (concat chunks))
     <= Z.of_nat (length output) + 100 * Z.of_nat (pred (length chunks)))%Z.
Proof.
  intros count max_tokens raw_text text chunks output.
  assert (Hout : output = merge_chunks_with_overlap chunks 100).
  { unfold output, extract_text_from_pdf.
    rewrite extract_text_from_pdf_log_eq; reflexivity. }
  split; [exact Hout|]; split; [apply non_whitespace_chunks|]; split.
  - intros l1 c l2 E; rewrite Hout, E; apply merge_keeps_chunks.
  - rewrite Hout; destruct chunks as [|c0 rest]; [simpl; lia|].
    rewrite merge_is_fold; cbn [concat length pred].
    pose proof (merge_fold_length 100 rest c0) as H.
    rewrite length_app; lia.
Qed.

(** The theorem at two paragraphs, the second a chunk of its own. *)
Lemma identity_pipeline_witness :
  exists a b,
    merge_chunks_with_overlap ([str_of "data set"] ++ [str_of "set theory"])
      100 = a ++ str_of "set theory" /\
    extract_text_from_pdf (fun c => Some c) (@length char)
      (str_of "data set" ++ [NL; NL] ++ str_of "set theory") 10
    = (a ++ str_of "set theory") ++ b.
Proof.
  refine (proj1 (proj2 (proj2 (identity_pipeline_keeps_chunks
            (@length char) 10
            (str_of "data set" ++ [NL; NL] ++ str_of "set theory")))) 
            [str_of "data set"] (str_of "set theory") [] _).
  vm_compute; reflexivity.
Defined.

(** C3, as the specification words it, fails on the code: of two
    paragraphs cut into two chunks, the second beginning with the word
    the first ends with, the merge keeps that word once; the output does
    not hold the characters of the input in order. *)
Lemma pipeline_drops_repeated_boundary :
  split_text_into_chunks (@length char) 10
    (str_of "data set" ++ [NL; NL] ++ str_of "set theory")
  = [str_of "data set"; str_of "set theory"] /\
  extract_text_from_pdf (fun c => Some c) (@length char)
    (str_of "data set" ++ [NL; NL] ++ str_of "set theory") 10
  = str_of "data set theory" /\
  non_whitespace (str_of "data set" ++ [NL; NL] ++ str_of "set theory")
  = str_of "datasetsettheory" /\
  is_subsequence
    (non_whitespace (str_of "data set" ++ [NL; NL] ++ str_of "set theory"))
    (extract_text_from_pdf (fun c => Some c) (@length char)
       (str_of "data set" ++ [NL; NL] ++ str_of "set theory") 10)
  = false.
Proof.
  repeat split; vm_compute; reflexivity.
Qed.

(** * Further properties of the code *)

(** ** [_find_best_overlap] *)

Lemma best_overlap_search_spec (n : nat) (text1 text2 : str) :
  (best_overlap_search n text1 text2 = [] /\
   forall m, 11 <= m <= n ->
             last_chars m text1 = firstn m text2 -> firstn m text2 = []) \/
  (exists L, 11 <= L <= n /\
             best_overlap_search n text1 text2 = firstn L text2 /\
             last_chars L text1 = firstn L text2 /\
             forall m, L < m <= n -> last_chars m text1 <> firstn m text2).
Proof.
  induction n as [|n IH]; [left; split; [reflexivity | intros; lia]|].
  cbn [best_overlap_search].
  destruct (S n <=? 10) eqn:En.
  - apply Nat.leb_le in En; left; split; [reflexivity | intros; lia].
  - apply Nat.leb_gt in En.
    destruct (str_eqb _ _) eqn:E.
    + apply str_eqb_eq in E; right; exists (S n).
      repeat split; auto; try lia; intros; lia.
    + apply str_eqb_neq in E.
      destruct IH as [[H0 Hn] | (L & HL & Ho & Hm & Hmax)].
      * left; split; [exact H0|]; intros m Hm Hmatch.
        destruct (Nat.eq_dec m (S n)) as [->|]; [contradiction|].
        apply Hn; [lia | exact Hmatch].
      * right; exists L; repeat split; auto; try lia.
        intros m Hm'; destruct (Nat.eq_dec m (S n)) as [->|];
          [exact E | apply Hmax; lia].
Qed.

Lemma find_best_overlap_spec :
  forall text1 text2 : str,
    (exists a, text1 = a ++ find_best_overlap text1 text2) /\
    (exists b, text2 = find_best_overlap text1 text2 ++ b) /\
    (find_best_overlap text1 text2 = [] \/
     11 <= length (find_best_overlap text1 text2)) /\
    (forall n a,
       11 <= n <= length text2 -> text1 = a ++ firstn n text2 ->
       n <= length (find_best_overlap text1 text2)).
Proof.
  intros text1 text2; unfold find_best_overlap.
  set (N := min (length text1) (length text2)).
  assert (Hends : forall m, m <= N ->
            (last_chars m text1 = firstn m text2 <->
             exists a, text1 = a ++ firstn m text2)).
  { intros m Hm; apply last_chars_ends; [|unfold N in Hm; lia].
    apply firstn_length_le; unfold N in Hm; lia. }
  destruct (best_overlap_search_spec N text1 text2)
    as [[H0 Hn] | (L & HL & Ho & Hm & Hmax)].
  - rewrite H0; repeat split.
    + exists text1; symmetry; apply app_nil_r.
    + exists text2; reflexivity.
    + left; reflexivity.
    + intros n a Hn' E; exfalso.
      assert (HnN : n <= N).
      { apply (f_equal (@length char)) in E.
        rewrite length_app, firstn_length_le in E by lia; unfold N; lia. }
      assert (Hnil : firstn n text2 = []).
      { apply Hn; [lia|]; apply Hends; [exact HnN | eauto]. }
      apply (f_equal (@length char)) in Hnil.
      rewrite firstn_length_le in Hnil by lia; simpl in Hnil; lia.
  - rewrite Ho.
    assert (Hlen : length (firstn L text2) = L)
      by (apply firstn_length_le; unfold N in HL; lia).
    repeat split.
    + apply Hends; [lia | exact Hm].
    + exists (skipn L text2); symmetry; apply firstn_skipn.
    + right; lia.
    + intros n a Hn' E; rewrite Hlen.
      assert (HnN : n <= N).
      { apply (f_equal (@length char)) in E.
        rewrite length_app, firstn_length_le in E by lia; unfold N; lia. }
      destruct (Nat.le_gt_cases n L) as [|Hgt]; [assumption|].
      exfalso; apply (Hmax n); [lia|]; apply Hends; [exact HnN | eauto].
Qed.

(** X1: the text returned is an overlap of the two texts, the first
    ends with it and the second begins with it, of more than ten
    characters or empty; and it is the longest such: an overlap of more
    than ten characters is never longer than it. *)
Theorem find_best_overlap_longest :
  forall text1 text2 : str,
    (exists a, text1 = a ++ find_best_overlap text1 text2) /\
    (exists b, text2 = find_best_overlap text1 text2 ++ b) /\
    (find_best_overlap text1 text2 = [] \/
     11 <= length (find_best_overlap text1 text2)) /\
    (forall n a,
       11 <= n <= length text2 -> text1 = a ++ firstn n text2 ->
       n <= length (find_best_overlap text1 text2)).
Proof. exact find_best_overlap_spec. Qed.

(** The theorem at two texts that share twelve characters. *)
Lemma find_best_overlap_witness :
  12 <= length (find_best_overlap (str_of "see the quick brown")
                  (str_of " quick brown fox")).
Proof.
  refine (proj2 (proj2 (proj2 (find_best_overlap_longest
            (str_of "see the quick brown") (str_of " quick brown fox"))))
            12 (str_of "see the") _ _).
  - vm_compute; lia.
  - vm_compute; reflexivity.
Defined.

(** X2: when [_find_best_overlap] finds an overlap and the bound of the
    merge allows its length, the merge of the two texts drops exactly
    that overlap from the second. *)
Theorem merge_drops_best_overlap :
  forall (text1 text2 : str) (k : Z),
    find_best_overlap text1 text2 <> [] ->
    (Z.of_nat (length (find_best_overlap text1 text2)) <= k)%Z ->
    merge_chunks_with_overlap [text1; text2] k
    = text1 ++ skipn (length (find_best_overlap text1 text2)) text2.
Proof.
  intros text1 text2 k Hne Hk.
  rewrite merge_is_fold; cbn [fold_left].
  destruct (find_best_overlap_spec text1 text2)
    as ([a Ha] & [b Hb] & Hlen & Hmax).
  destruct Hlen as [E | Hlen]; [contradiction|].
  set (o := find_best_overlap text1 text2) in *.
  assert (Ho2 : length o <= length text2).
  { pose proof (f_equal (@length char) Hb) as E.
    rewrite length_app in E; lia. }
  assert (Ho1 : length o <= length text1).
  { pose proof (f_equal (@length char) Ha) as E.
    rewrite length_app in E; lia. }
  assert (Hfo : firstn (length o) text2 = o).
  { transitivity (firstn (length o) (o ++ b)); [f_equal; exact Hb|].
    rewrite firstn_app, Nat.sub_diag, firstn_all.
    simpl; apply app_nil_r. }
  destruct (merge_one_longest k text1 text2)
    as (L & -> & HL & HLmax); cbv zeta in *.
  f_equal; f_equal.
  destruct (Nat.lt_trichotomy L (length o)) as [Hlt | [-> | Hgt]];
    [exfalso | reflexivity | exfalso].
  - apply (HLmax (length o) Hlt); [lia|].
    exists a; rewrite Hfo; exact Ha.
  - destruct HL as [-> | (_ & HLb & a' & Ha')]; [lia|].
    pose proof (Hmax L a') as H; specialize (H ltac:(lia) Ha'); lia.
Qed.

(** The theorem at the two texts above, with the bound of the default. *)
Lemma merge_drops_best_overlap_witness :
  merge_chunks_with_overlap
    [str_of "see the quick brown"; str_of " quick brown fox"] 100
  = str_of "see the quick brown" ++
    skipn (length (find_best_overlap (str_of "see the quick brown")
                     (str_of " quick brown fox")))
      (str_of " quick brown fox").
Proof.
  apply (merge_drops_best_overlap (str_of "see the quick brown")
           (str_of " quick brown fox") 100).
  - vm_compute; discriminate.
  - vm_compute; discriminate.
Defined.

(** ** [merge_chunks_with_overlap], whatever the bound *)

Lemma merge_one_no_search (k : Z) (acc chunk : str) :
  (k <= 0)%Z -> merge_one k acc chunk = acc ++ chunk.
Proof.
  intros Hk; unfold merge_one, max_check_len.
  replace (Z.to_nat _) with 0 by lia; reflexivity.
Qed.

Lemma merge_one_length_le (k : Z) (acc chunk : str) :
  length (merge_one k acc chunk) <= length acc + length chunk.
Proof.
  destruct (merge_one_longest k acc chunk) as (L & -> & _).
  rewrite length_app, length_skipn; lia.
Qed.

Lemma merge_fold_length_le (k : Z) (l : list str) (acc : str) :
  length (fold_left (merge_one k) l acc) <= length acc + length (concat l).
Proof.
  revert acc; induction l as [|c l IH]; intros acc; simpl; [lia|].
  specialize (IH (merge_one k acc c)).
  pose proof (merge_one_length_le k acc c).
  rewrite length_app; lia.
Qed.

(** X3: with a bound of zero or less nothing is searched: the merge is
    the chunks one after the other. *)
Theorem merge_without_bound_concatenates :
  forall (chunks : list str) (k : Z),
    (k <= 0)%Z -> merge_chunks_with_overlap chunks k = concat chunks.
Proof.
  intros [|c0 rest] k Hk; [reflexivity|].
  rewrite merge_is_fold; simpl.
  revert c0; induction rest as [|c rest IH]; intros c0; simpl.
  - symmetry; apply app_nil_r.
  - rewrite merge_one_no_search by exact Hk.
    rewrite IH, <- app_assoc; reflexivity.
Qed.

Lemma merge_without_bound_witness :
  merge_chunks_with_overlap [str_of "abab"; str_of "ab"] 0
  = concat [str_of "abab"; str_of "ab"].
Proof.
  apply (merge_without_bound_concatenates [str_of "abab"; str_of "ab"] 0).
  lia.
Defined.

(** X4: whatever the bound and the chunks, the merged text begins with
    the first chunk and ends with the last, each whole; it is no longer
    than the chunks together, and shorter by at most the bound for each
    chunk after the first. *)
Theorem merge_shape :
  forall (k : Z) (chunks : list str),
    (forall c0 rest,
       chunks = c0 :: rest ->
       exists t, merge_chunks_with_overlap chunks k = c0 ++ t) /\
    (forall init c,
       chunks = init ++ [c] ->
       exists a, merge_chunks_with_overlap chunks k = a ++ c) /\
    length (merge_chunks_with_overlap chunks k) <= length (concat chunks) /\
    (Z.of_nat (length (concat chunks))
     <= Z.of_nat (length (merge_chunks_with_overlap chunks k))
        + Z.max 0 k * Z.of_nat (pred (length chunks)))%Z.
Proof.
  intros k chunks; split; [|split; [|split]].
  - intros c0 rest ->; rewrite merge_is_fold; apply merge_fold_extends.
  - intros init c ->.
    destruct (merge_keeps_chunks k init c []) as (a & b & Ha & _); eauto.
  - destruct chunks as [|c0 rest]; [simpl; lia|].
    rewrite merge_is_fold; cbn [concat]; rewrite length_app.
    apply merge_fold_length_le.
  - destruct chunks as [|c0 rest]; [simpl; lia|].
    rewrite merge_is_fold; cbn [concat length pred]; rewrite length_app.
    pose proof (merge_fold_length k rest c0); lia.
Qed.

Lemma merge_shape_witness :
  exists a,
    merge_chunks_with_overlap ([str_of "data set"] ++ [str_of "set theory"]) 5
    = a ++ str_of "set theory".
Proof.
  apply (proj1 (proj2 (merge_shape 5
           ([str_of "data set"] ++ [str_of "set theory"])))
           [str_of "data set"] (str_of "set theory")).
  reflexivity.
Defined.

(** ** [split_text_into_chunks]: what a chunk is *)

Lemma assemble_chunks_not_blank (count : str -> nat) (max_tokens : Z)
  (ps : list str) :
  Forall (fun chunk => is_blank chunk = false) (assemble count max_tokens ps).
Proof.
  destruct (assemble_groups count max_tokens ps) as (groups & Hc & Hg & ->).
  pose proof (segments_of_not_blank count max_tokens ps) as Hnb.
  rewrite <- Hc in Hnb; clear Hc.
  induction groups as [|g groups IH]; [constructor|].
  simpl in Hnb; apply Forall_app in Hnb; destruct Hnb as [Hg1 Hrest].
  inversion Hg as [|? ? Hne Hg']; subst.
  constructor; [|apply IH; assumption].
  destruct g as [|h rest]; [congruence|].
  destruct (render_cons_prefix h rest) as [t ->].
  inversion Hg1 as [|? ? Hh _]; subst.
  apply is_blank_false in Hh; destruct Hh as (c & Hc & Hs).
  apply is_blank_false; exists c; split; [|exact Hs].
  apply in_or_app; left; exact Hc.
Qed.

(** X5: no chunk is empty or made of white space only, so the model is
    never called on such a text. *)
Theorem chunks_are_not_blank :
  forall (llm : str -> option str) (count : str -> nat) (max_tokens : Z)
         (text : str),
    (forall chunk,
       In chunk (split_text_into_chunks count max_tokens text) ->
       is_blank chunk = false) /\
    (forall chunk,
       In chunk (snd (extract_text_from_pdf_log llm count text max_tokens)) ->
       is_blank chunk = false).
Proof.
  intros llm count max_tokens text; split; intros chunk H.
  - pose proof (assemble_chunks_not_blank count max_tokens (split_nlnl text))
      as Hall.
    rewrite Forall_forall in Hall; apply Hall; exact H.
  - rewrite extract_text_from_pdf_log_eq in H; cbn [snd] in H.
    pose proof (assemble_chunks_not_blank count max_tokens
                  (split_nlnl (remove_references_section text))) as Hall.
    rewrite Forall_forall in Hall; apply Hall; exact H.
Qed.

Lemma chunks_are_not_blank_witness :
  is_blank (str_of "Hello world.") = false.
Proof.
  apply (proj1 (chunks_are_not_blank (fun c => Some c) (@length char) 5
                  (str_of "Hello world. Hi."))).
  vm_compute; left; reflexivity.
Defined.

Lemma join_app (sep : str) (l1 l2 : list str) :
  l1 <> [] -> l2 <> [] ->
  join sep (l1 ++ l2) = join sep l1 ++ sep ++ join sep l2.
Proof.
  intros H1 H2; induction l1 as [|p l1 IH]; [congruence|].
  destruct l1 as [|q l1].
  - simpl; destruct l2; [congruence | reflexivity].
  - change ((p :: q :: l1) ++ l2) with (p :: ((q :: l1) ++ l2)).
    rewrite !join_cons by discriminate.
    rewrite IH by discriminate; rewrite <- !app_assoc; reflexivity.
Qed.

Lemma join_not_nil (sep p : str) (ps : list str) :
  p <> [] -> join sep (p :: ps) <> [].
Proof.
  intros Hp; destruct ps; simpl; [exact Hp|].
  destruct p; [congruence | discriminate].
Qed.

Section SingleChunk.

Variable count : str -> nat.
Variable max_tokens : Z.
Hypothesis count_app_l : forall a b, count a <= count (a ++ b).
Hypothesis count_app_r : forall a b, count b <= count (a ++ b).

Lemma within_part (a t b : str) :
  within_budget count max_tokens (a ++ t ++ b) = true ->
  within_budget count max_tokens t = true.
Proof.
  unfold within_budget; rewrite !Z.leb_le.
  pose proof (count_app_r a (t ++ b)); pose proof (count_app_l t b); lia.
Qed.

(** While the paragraphs joined so far and those to come fit together,
    the loop closes no chunk: the buffer is the paragraphs joined. *)
Lemma fold_fits (ps done : list str) :
  done <> [] ->
  Forall (fun p => is_blank p = false) (done ++ ps) ->
  within_budget count max_tokens (join [NL; NL] (done ++ ps)) = true ->
  fold_left (paragraph_step count max_tokens) ps ([], join [NL; NL] done)
  = ([], join [NL; NL] (done ++ ps)).
Proof.
  revert done; induction ps as [|p ps IH]; intros done Hd Hnb Hw.
  - rewrite app_nil_r; reflexivity.
  - replace (done ++ p :: ps) with ((done ++ [p]) ++ ps) in *
      by (rewrite <- app_assoc; reflexivity).
    cbn [fold_left].
    assert (Hp : is_blank p = false).
    { apply Forall_app in Hnb; destruct Hnb as [Hnb _].
      apply Forall_app in Hnb; destruct Hnb as [_ Hnb].
      inversion Hnb; assumption. }
    assert (Hj : join [NL; NL] (done ++ [p])
                 = join [NL; NL] done ++ [NL; NL] ++ p)
      by (apply join_app; [exact Hd | discriminate]).
    assert (Hwj : within_budget count max_tokens
                    (join [NL; NL] (done ++ [p])) = true).
    { destruct ps as [|q ps]; [rewrite app_nil_r in Hw; exact Hw|].
      rewrite join_app in Hw by (try discriminate; destruct done; discriminate).
      exact (within_part [] _ _ Hw). }
    assert (Hwp : within_budget count max_tokens p = true).
    { rewrite Hj in Hwj.
      apply (within_part (join [NL; NL] done ++ [NL; NL]) p []).
      rewrite app_nil_r, <- app_assoc; exact Hwj. }
    assert (Ht : truthy (join [NL; NL] done) = true).
    { apply truthy_true; destruct done as [|d done]; [congruence|].
      apply join_not_nil, not_blank_not_nil.
      inversion Hnb; assumption. }
    replace (paragraph_step count max_tokens ([], join [NL; NL] done) p)
      with (@nil str, join [NL; NL] (done ++ [p])).
    + apply IH; [destruct done; discriminate | exact Hnb | exact Hw].
    + unfold paragraph_step; rewrite Hp, Hwp, Ht; cbn [negb].
      rewrite <- Hj, Hwj; reflexivity.
Qed.

Lemma assemble_fits (ps : list str) :
  ps <> [] ->
  Forall (fun p => is_blank p = false) ps ->
  within_budget count max_tokens (join [NL; NL] ps) = true ->
  assemble count max_tokens ps = [join [NL; NL] ps].
Proof.
  destruct ps as [|p ps]; [congruence|]; intros _ Hnb Hw.
  assert (Hp : is_blank p = false) by (inversion Hnb; assumption).
  assert (Hwp : within_budget count max_tokens p = true).
  { destruct ps as [|q ps]; [exact Hw|].
    rewrite join_cons in Hw by discriminate.
    exact (within_part [] p _ Hw). }
  unfold assemble; cbn [fold_left].
  replace (paragraph_step count max_tokens ([], []) p)
    with (@nil str, join [NL; NL] [p])
    by (unfold paragraph_step; rewrite Hp, Hwp; cbn [negb truthy join];
        rewrite Hwp; reflexivity).
  rewrite (fold_fits ps [p]) by (try discriminate; assumption).
  unfold flush; cbn [app].
  assert (Ht : truthy (join [NL; NL] (p :: ps)) = true)
    by (apply truthy_true, join_not_nil, not_blank_not_nil; exact Hp).
  rewrite Ht; reflexivity.
Qed.

End SingleChunk.

(** X6: under a tokenizer that counts no fewer tokens in a text than in
    its parts, a text whose paragraphs, a blank line between each two, fit
    the budget together is cut into one chunk, these paragraphs joined;
    when no piece of the split is blank that chunk is the text itself. *)
Theorem text_within_budget_is_one_chunk :
  forall (count : str -> nat) (max_tokens : Z) (text : str),
    (forall a b : str,
       count a <= count (a ++ b) /\ count b <= count (a ++ b)) ->
    paragraphs_of text <> [] ->
    (Z.of_nat (count (join [NL; NL] (paragraphs_of text))) <= max_tokens)%Z ->
    split_text_into_chunks count max_tokens text
    = [join [NL; NL] (paragraphs_of text)] /\
    (paragraphs_of text = split_nlnl text ->
     split_text_into_chunks count max_tokens text = [text]).
Proof.
  intros count max_tokens text Hmono Hne Hw.
  assert (E : split_text_into_chunks count max_tokens text
              = [join [NL; NL] (paragraphs_of text)]).
  { unfold split_text_into_chunks; rewrite assemble_skips_blank.
    change (filter _ (split_nlnl text)) with (paragraphs_of text).
    apply assemble_fits; try (intros a b; apply Hmono); try assumption.
    - apply Forall_forall; intros p Hp; apply in_paragraphs_of in Hp; tauto.
    - apply within_budget_true; exact Hw. }
  split; [exact E|].
  intros Hall; rewrite E, Hall, join_split_nlnl; reflexivity.
Qed.

Lemma text_within_budget_witness :
  split_text_into_chunks (@length char) 20
    (str_of "one" ++ [NL; NL] ++ str_of "two")
  = [join [NL; NL]
       (paragraphs_of (str_of "one" ++ [NL; NL] ++ str_of "two"))].
Proof.
  refine (proj1 (text_within_budget_is_one_chunk (@length char) 20
                   (str_of "one" ++ [NL; NL] ++ str_of "two") _ _ _)).
  - intros a b; rewrite length_app; lia.
  - vm_compute; discriminate.
  - vm_compute; discriminate.
Defined.

(** ** The sentences of a paragraph *)

Lemma single_sentence_cons (c : char) (s : str) :
  is_terminal c = false -> single_sentence s = true ->
  single_sentence (c :: s) = true.
Proof.
  unfold single_sentence; intros Hc Hs; destruct s as [|d s];
    [reflexivity|].
  change (removelast (c :: d :: s)) with (c :: removelast (d :: s)).
  simpl; rewrite Hc; exact Hs.
Qed.

(** X7: the sentences of a paragraph, one after the other, are the
    paragraph; each holds at most one sentence mark, at its end; each but
    the last ends with one. *)
Theorem split_sentences_shape :
  forall p : str,
    concat (split_sentences p) = p /\
    Forall (fun s => single_sentence s = true) (split_sentences p) /\
    Forall (fun s => exists body c, s = body ++ [c] /\ is_terminal c = true)
      (removelast (split_sentences p)) /\
    forallb (fun c => negb (is_terminal c)) (last (split_sentences p) [])
    = true.
Proof.
  intros p; split; [apply concat_split_sentences|].
  induction p as [|c p (IH1 & IH2 & IH3)].
  - repeat split; repeat constructor.
  - rewrite split_sentences_cons; destruct (is_terminal c) eqn:Ec.
    + assert (Hne : split_sentences p <> []).
      { intros E; pose proof (concat_split_sentences p) as Hc.
        destruct p as [|d p]; [discriminate|].
        rewrite E in Hc; discriminate. }
      destruct (split_sentences p) as [|s0 rest] eqn:Es; [congruence|].
      split; [constructor; [reflexivity | exact IH1]|]; split.
      * change (removelast ([c] :: s0 :: rest))
          with ([c] :: removelast (s0 :: rest)).
        constructor; [exists [], c; auto | exact IH2].
      * exact IH3.
    + assert (Hne : split_sentences p <> []).
      { intros E; pose proof (concat_split_sentences p) as Hc.
        destruct p as [|d p]; [discriminate|].
        rewrite E in Hc; discriminate. }
      destruct (split_sentences p) as [|s0 rest] eqn:Es; [congruence|].
      cbn [cons_first]; inversion IH1 as [|? ? Hs0 Hrest]; subst.
      split; [constructor; [apply single_sentence_cons; assumption
                           | exact Hrest]|].
      destruct rest as [|s1 rest].
      * split; [constructor|]; simpl in *; rewrite Ec; exact IH3.
      * change (removelast ((c :: s0) :: s1 :: rest))
          with ((c :: s0) :: removelast (s1 :: rest)).
        change (removelast (s0 :: s1 :: rest))
          with (s0 :: removelast (s1 :: rest)) in IH2.
        inversion IH2 as [|? ? (body & d & -> & Hd) Hr]; subst.
        split; [|exact IH3].
        constructor; [exists (c :: body), d; auto | exact Hr].
Qed.

(** ** [remove_references_section], applied twice *)

Lemma same_ignoring_case_length (pattern word : str) :
  same_ignoring_case pattern word -> length word = length pattern.
Proof.
  intros H; symmetry; apply (Forall2_length H).
Qed.

(** X8: the word does not occur, in any mix of cases, in the text the
    function returns, so a second pass removes nothing more. *)
Theorem remove_references_leaves_no_occurrence :
  forall text : str,
    (forall i, ~ occurs_at REFERENCES i (remove_references_section text)) /\
    remove_references_section (remove_references_section text)
    = remove_references_section text.
Proof.
  intros text.
  assert (Hnone : forall i,
            ~ occurs_at REFERENCES i (remove_references_section text)).
  { unfold remove_references_section.
    destruct (re_search REFERENCES text) as [k|] eqn:E;
      [|apply re_search_none; exact E].
    destruct (re_search_some _ _ _ E) as [_ Hfirst].
    intros i (before & word & after & Ht & Hl & Hw).
    assert (Hk : length (firstn k text) <= k) by apply firstn_le_length.
    pose proof (same_ignoring_case_length _ _ Hw) as Hlw.
    change (length REFERENCES) with 10 in Hlw.
    pose proof (f_equal (@length char) Ht) as Hlen.
    rewrite !length_app in Hlen.
    apply (Hfirst i); [lia|].
    exists before, word, (after ++ skipn k text); repeat split; auto.
    rewrite <- (firstn_skipn k text) at 1.
    rewrite Ht, <- !app_assoc; reflexivity. }
  split; [exact Hnone|].
  unfold remove_references_section at 1.
  destruct (re_search REFERENCES (remove_references_section text))
    as [k|] eqn:E; [|reflexivity].
  exfalso; apply (Hnone k), (re_search_some _ _ _ E).
Qed.

(** ** The names of the files written *)

Lemma starts_with_prefix (prefix s : str) :
  starts_with prefix s = true <-> exists b, s = prefix ++ b.
Proof.
  revert s; induction prefix as [|p prefix IH]; intros s; simpl.
  - split; [intros _; exists s; reflexivity | auto].
  - destruct s as [|c s]; [split; [discriminate | intros [b H]; discriminate]|].
    unfold char_eqb; rewrite andb_true_iff, N.eqb_eq, IH; split.
    + intros [-> [b ->]]; exists b; reflexivity.
    + intros [b H]; injection H as -> ->; eauto.
Qed.

Lemma replace_from_skip (old new before rest : str) :
  replace_from old new (length before) (before ++ rest)
  = replace_from old new 0 rest.
Proof.
  induction before as [|c before IH]; [reflexivity|].
  simpl; destruct (before ++ rest) eqn:E; exact IH.
Qed.

Lemma replace_from_none (old new s : str) :
  ~ occurs_in old s -> replace_from old new 0 s = s.
Proof.
  induction s as [|c s IH]; intros H; [reflexivity|].
  cbn [replace_from].
  destruct (starts_with old (c :: s)) eqn:E.
  - exfalso; apply starts_with_prefix in E; destruct E as [b E].
    apply H; exists [], b; exact E.
  - f_equal; apply IH; intros (a & b & ->).
    apply H; exists (c :: a), b; reflexivity.
Qed.

(** Of two texts that begin a third, the shorter begins the longer. *)
Lemma prefix_of_prefix (x x' y y' : str) :
  x ++ x' = y ++ y' -> length y <= length x -> exists z, x = y ++ z.
Proof.
  revert x; induction y as [|a y IH]; intros x E Hl; [exists x; reflexivity|].
  destruct x as [|b x]; [simpl in Hl; lia|].
  simpl in E; injection E as -> E.
  destruct (IH x E) as [z ->]; [simpl in Hl; lia|].
  exists z; reflexivity.
Qed.

(** The first occurrence is replaced and the scan goes on after it. *)
Lemma replace_from_first (old new stem rest : str) :
  old <> [] ->
  ~ occurs_in old (stem ++ removelast old) ->
  replace_from old new 0 (stem ++ old ++ rest)
  = stem ++ new ++ replace_from old new 0 rest.
Proof.
  intros Hold; induction stem as [|c stem IH]; intros H.
  - destruct old as [|o old]; [congruence|].
    cbn [app replace_from].
    assert (E : starts_with (o :: old) (o :: old ++ rest) = true)
      by (apply starts_with_prefix; exists rest; reflexivity).
    rewrite E; f_equal.
    replace (length (o :: old) - 1) with (length old) by (simpl; lia).
    apply replace_from_skip.
  - cbn [app replace_from].
    destruct (starts_with old (c :: stem ++ old ++ rest)) eqn:E.
    + exfalso; apply starts_with_prefix in E; destruct E as [b E].
      apply H.
      assert (Hsplit : old = removelast old ++ [last old c])
        by (apply app_removelast_last; exact Hold).
      assert (Hx : ((c :: stem) ++ removelast old) ++ [last old c] ++ rest
                   = old ++ b).
      { rewrite <- E, <- app_assoc; cbn [app]; do 2 f_equal.
        rewrite Hsplit at 3; rewrite <- app_assoc; reflexivity. }
      destruct (prefix_of_prefix _ _ _ _ Hx) as [z Hz].
      { rewrite Hsplit at 1; rewrite !length_app; simpl; lia. }
      exists [], z; exact Hz.
    + f_equal; apply IH; intros (a & b & Hab).
      apply H; exists (c :: a), b; cbn [app]; rewrite Hab; reflexivity.
Qed.

(** X9: a name in which [.pdf] does not occur, such as one with the
    extension in capitals, is returned as it is by both replacements: the
    text file and the raw text file get the name of the PDF itself. *)
Theorem output_name_without_pdf_is_unchanged :
  forall name : str,
    ~ occurs_in (str_of ".pdf") name ->
    output_filename name = name /\ raw_text_output_path name = name.
Proof.
  intros name H; split; apply replace_from_none; exact H.
Qed.

Lemma not_occurs_in_short (sub s : str) :
  length s < length sub -> ~ occurs_in sub s.
Proof.
  intros Hl (a & b & E); apply (f_equal (@length char)) in E.
  rewrite !length_app in E; lia.
Qed.

Lemma output_name_without_pdf_witness :
  output_filename (str_of "A.PDF") = str_of "A.PDF" /\
  raw_text_output_path (str_of "A.PDF") = str_of "A.PDF".
Proof.
  apply (output_name_without_pdf_is_unchanged (str_of "A.PDF")).
  intros (a & b & E).
  assert (Hm : forall k, k < 5 ->
            starts_with (str_of ".pdf") (skipn k (str_of "A.PDF")) = false).
  { intros k Hk; do 5 (destruct k as [|k]; [vm_compute; reflexivity|]); lia. }
  assert (Ha : length a < 5).
  { apply (f_equal (@length char)) in E; rewrite !length_app in E.
    simpl in E; lia. }
  specialize (Hm (length a) Ha); apply not_true_iff_false in Hm; apply Hm.
  apply starts_with_prefix; exists b.
  rewrite E, skipn_app, skipn_all, Nat.sub_diag; reflexivity.
Defined.

(** X10: for a name that ends with [.pdf], where [.pdf] does not occur
    before, the text file is the name with [.txt] in its place and the raw
    text file the name with [_raw.txt]. *)
Theorem output_name_replaces_extension :
  forall stem : str,
    ~ occurs_in (str_of ".pdf") (stem ++ str_of ".pd") ->
    output_filename (stem ++ str_of ".pdf") = stem ++ str_of ".txt" /\
    raw_text_output_path (stem ++ str_of ".pdf") = stem ++ str_of "_raw.txt".
Proof.
  intros stem H; unfold output_filename, raw_text_output_path, str_replace.
  change (str_of ".pdf") with (46 :: 112 :: 100 :: [102])%N in *.
  pose proof (replace_from_first [46; 112; 100; 102]%N (str_of ".txt")
                stem [] ltac:(discriminate) H) as H1.
  pose proof (replace_from_first [46; 112; 100; 102]%N (str_of "_raw.txt")
                stem [] ltac:(discriminate) H) as H2.
  rewrite !app_nil_r in H1, H2; split; assumption.
Qed.

Lemma output_name_replaces_extension_witness :
  output_filename (str_of "paper" ++ str_of ".pdf")
  = str_of "paper" ++ str_of ".txt" /\
  raw_text_output_path (str_of "paper" ++ str_of ".pdf")
  = str_of "paper" ++ str_of "_raw.txt".
Proof.
  apply (output_name_replaces_extension (str_of "paper")).
  intros (a & b & E).
  assert (Hm : forall k, k < 8 ->
            starts_with (str_of ".pdf")
              (skipn k (str_of "paper" ++ str_of ".pd")) = false).
  { intros k Hk; do 8 (destruct k as [|k]; [vm_compute; reflexivity|]); lia. }
  assert (Ha : length a < 8).
  { apply (f_equal (@length char)) in E; rewrite !length_app in E.
    simpl in E; lia. }
  specialize (Hm (length a) Ha); apply not_true_iff_false in Hm; apply Hm.
  apply starts_with_prefix; exists b.
  rewrite E, skipn_app, skipn_all, Nat.sub_diag; reflexivity.
Defined.

(** ** [sanitize_filename] and [make_filename] *)

Lemma lstrip_decompose (s : str) :
  exists ws, s = ws ++ lstrip s /\ forallb isspace ws = true.
Proof.
  induction s as [|c s (ws & E & Hws)]; [exists []; auto|]; simpl.
  destruct (isspace c) eqn:Ec; [|exists []; auto].
  exists (c :: ws); simpl; rewrite Ec, Hws, <- E; auto.
Qed.

Lemma rstrip_decompose (s : str) :
  exists ws, s = rstrip s ++ ws /\ forallb isspace ws = true.
Proof.
  unfold rstrip; destruct (lstrip_decompose (rev s)) as (ws & E & Hws).
  exists (rev ws); rewrite forallb_rev; split; [|exact Hws].
  rewrite <- rev_app_distr, <- E, rev_involutive; reflexivity.
Qed.

Lemma rstrip_last (s t : str) (c : char) :
  rstrip s = t ++ [c] -> isspace c = false.
Proof.
  unfold rstrip; intros E; apply (f_equal (@rev char)) in E.
  rewrite rev_involutive, rev_app_distr in E; simpl in E.
  apply (lstrip_head _ _ _ E).
Qed.

Lemma lstrip_fixed (s : str) :
  (forall c t, s = c :: t -> isspace c = false) -> lstrip s = s.
Proof.
  destruct s as [|c s]; [reflexivity|]; intros H; simpl.
  rewrite (H c s eq_refl); reflexivity.
Qed.

Lemma rstrip_fixed (s : str) :
  (forall t c, s = t ++ [c] -> isspace c = false) -> rstrip s = s.
Proof.
  intros H; unfold rstrip; rewrite lstrip_fixed; [apply rev_involutive|].
  intros c t E; apply (H (rev t) c).
  rewrite <- (rev_involutive s), E; reflexivity.
Qed.

(** A trimmed text has no white space at either end. *)
Lemma strip_ends (s : str) :
  (forall c t, strip s = c :: t -> isspace c = false) /\
  (forall t c, strip s = t ++ [c] -> isspace c = false).
Proof.
  unfold strip; split; [|intros t c; apply rstrip_last].
  intros c t E.
  destruct (rstrip_decompose (lstrip s)) as (ws & Hd & _).
  rewrite E in Hd; simpl in Hd; apply (lstrip_head _ _ _ Hd).
Qed.

Lemma strip_fixed (s : str) :
  (forall c t, s = c :: t -> isspace c = false) ->
  (forall t c, s = t ++ [c] -> isspace c = false) ->
  strip s = s.
Proof.
  intros H1 H2; unfold strip; rewrite lstrip_fixed by exact H1.
  apply rstrip_fixed; exact H2.
Qed.

(** Trimming keeps a run of the characters of the text. *)
Lemma strip_decompose (s : str) :
  exists a b, s = a ++ strip s ++ b.
Proof.
  destruct (lstrip_decompose s) as (a & Ha & _).
  destruct (rstrip_decompose (lstrip s)) as (b & Hb & _).
  exists a, b; unfold strip; rewrite <- Hb; exact Ha.
Qed.

Lemma in_strip (s : str) (c : char) : In c (strip s) -> In c s.
Proof.
  destruct (strip_decompose s) as (a & b & E); intros H.
  rewrite E; apply in_or_app; right; apply in_or_app; left; exact H.
Qed.

Lemma strip_length (s : str) : length (strip s) <= length s.
Proof.
  destruct (strip_decompose s) as (a & b & E).
  rewrite E at 2; rewrite !length_app; lia.
Qed.

Lemma sanitize_not_reserved (s : str) (c : char) :
  In c (sanitize_filename s) -> is_reserved c = false.
Proof.
  unfold sanitize_filename; intros H; apply in_strip, in_map_iff in H.
  destruct H as (x & <- & _); destruct (is_reserved x) eqn:E;
    [reflexivity | exact E].
Qed.

Lemma sanitize_filename_spec :
  forall s : str,
    (forall c, In c (sanitize_filename s) -> is_reserved c = false) /\
    (forall c t, sanitize_filename s = c :: t -> isspace c = false) /\
    (forall t c, sanitize_filename s = t ++ [c] -> isspace c = false) /\
    length (sanitize_filename s) <= length s.
Proof.
  intros s; split; [apply sanitize_not_reserved|].
  split; [apply strip_ends|]; split; [apply strip_ends|].
  unfold sanitize_filename.
  rewrite <- (length_map (fun c => if is_reserved c then UNDERSCORE else c) s).
  apply strip_length.
Qed.

(** X11: the name returned holds none of the nine characters of the
    pattern and no white space at either end, and is no longer than the
    text given. *)
Theorem sanitize_filename_is_clean :
  forall s : str,
    (forall c, In c (sanitize_filename s) -> is_reserved c = false) /\
    (forall c t, sanitize_filename s = c :: t -> isspace c = false) /\
    (forall t c, sanitize_filename s = t ++ [c] -> isspace c = false) /\
    length (sanitize_filename s) <= length s.
Proof. exact sanitize_filename_spec. Qed.

Lemma sanitize_filename_witness :
  is_reserved (nth 1 (sanitize_filename (str_of " a/b ")) 0%N) = false.
Proof.
  apply (proj1 (sanitize_filename_is_clean (str_of " a/b "))).
  vm_compute; right; left; reflexivity.
Defined.

(** X12: a text without any of the nine characters and without white
    space at its ends is returned as it is; so cleaning twice is cleaning
    once. *)
Theorem sanitize_filename_idempotent :
  (forall s : str,
     (forall c, In c s -> is_reserved c = false) ->
     (forall c t, s = c :: t -> isspace c = false) ->
     (forall t c, s = t ++ [c] -> isspace c = false) ->
     sanitize_filename s = s) /\
  (forall s : str,
     sanitize_filename (sanitize_filename s) = sanitize_filename s).
Proof.
  assert (H : forall s : str,
            (forall c, In c s -> is_reserved c = false) ->
            (forall c t, s = c :: t -> isspace c = false) ->
            (forall t c, s = t ++ [c] -> isspace c = false) ->
            sanitize_filename s = s).
  { intros s Hr H1 H2; unfold sanitize_filename.
    replace (map _ s) with s; [apply strip_fixed; assumption|].
    rewrite <- (map_id s) at 1; apply map_ext_in.
    intros c Hc; rewrite (Hr c Hc); reflexivity. }
  split; [exact H|].
  intros s; destruct (sanitize_filename_spec s) as (Hr & H1 & H2 & _).
  apply H; assumption.
Qed.

Lemma sanitize_filename_idempotent_witness :
  sanitize_filename (str_of "a_b") = str_of "a_b".
Proof.
  apply (proj1 sanitize_filename_idempotent (str_of "a_b")).
  - intros c Hc; simpl in Hc.
    destruct Hc as [<- | [<- | [<- | []]]]; reflexivity.
  - intros c t E; injection E as <- _; reflexivity.
  - intros t c E.
    change (str_of "a_b") with ([97; 95]%N ++ [98%N]) in E.
    apply app_inj_tail in E; destruct E as [_ <-]; reflexivity.
Defined.

(** X13: the file name made from a formatted template has at most 128
    characters, none of them one of the nine, and it does not begin with
    white space; it is the cleaned text when that is not longer. *)
Theorem make_filename_is_bounded :
  forall formatted : str,
    length (make_filename formatted) <= 128 /\
    (forall c, In c (make_filename formatted) -> is_reserved c = false) /\
    (forall c t, make_filename formatted = c :: t -> isspace c = false) /\
    (length (sanitize_filename formatted) <= 128 ->
     make_filename formatted = sanitize_filename formatted).
Proof.
  intros formatted; unfold make_filename; split; [apply firstn_le_length|].
  split; [|split].
  - intros c Hc; apply (sanitize_not_reserved formatted).
    rewrite <- (firstn_skipn 128 (sanitize_filename formatted)).
    apply in_or_app; left; exact Hc.
  - intros c t E.
    destruct (sanitize_filename formatted) as [|d r] eqn:Es;
      [discriminate|].
    simpl in E; injection E as <- _.
    destruct (sanitize_filename_spec formatted) as (_ & H1 & _).
    apply (H1 d r Es).
  - intros Hl; apply firstn_all2; exact Hl.
Qed.

Lemma make_filename_witness :
  make_filename (str_of "Doe-2020-J: A/B") 
  = sanitize_filename (str_of "Doe-2020-J: A/B").
Proof.
  apply (proj2 (proj2 (proj2 (make_filename_is_bounded
                                (str_of "Doe-2020-J: A/B"))))).
  apply Nat.leb_le; vm_compute; reflexivity.
Defined.

(** ** The merge of [get_complete_metadata] *)

Lemma str_eqb_refl (k : str) : str_eqb k k = true.
Proof. apply str_eqb_eq; reflexivity. Qed.

Lemma dict_get_set_same (d : dict) (k v : str) :
  dict_get (dict_set d k v) k = Some v.
Proof.
  induction d as [|[k' v'] d IH]; simpl; [rewrite str_eqb_refl; reflexivity|].
  destruct (str_eqb k' k) eqn:E; simpl; rewrite E; auto.
Qed.

Lemma dict_get_set_other (d : dict) (k v k2 : str) :
  k <> k2 -> dict_get (dict_set d k v) k2 = dict_get d k2.
Proof.
  intros Hne; induction d as [|[k' v'] d IH]; simpl.
  - apply str_eqb_neq in Hne; rewrite Hne; reflexivity.
  - destruct (str_eqb k' k) eqn:E; simpl.
    + apply str_eqb_eq in E; subst k'.
      apply str_eqb_neq in Hne; rewrite Hne; reflexivity.
    + rewrite IH; reflexivity.
Qed.

Lemma dict_get_absent (d : dict) (k : str) :
  ~ In k (map fst d) -> dict_get d k = None.
Proof.
  induction d as [|[k' v'] d IH]; simpl; [reflexivity|]; intros H.
  destruct (str_eqb k' k) eqn:E; [|apply IH; tauto].
  apply str_eqb_eq in E; tauto.
Qed.

Lemma dict_get_in (d : dict) (k v : str) :
  dict_get d k = Some v -> In k (map fst d).
Proof.
  induction d as [|[k' v'] d IH]; simpl; [discriminate|].
  destruct (str_eqb k' k) eqn:E; [apply str_eqb_eq in E; auto|].
  intros H; right; apply IH; exact H.
Qed.

Lemma or_else_none (a : option str) : or_else a None = a.
Proof. destruct a; reflexivity. Qed.

(** After an update a key has the value of the other dictionary when it
    is there, its old value otherwise. *)
Lemma dict_get_update (d other : dict) (k : str) :
  valid_dict other ->
  dict_get (dict_update d other) k
  = or_else (dict_get other k) (dict_get d k).
Proof.
  unfold dict_update, valid_dict; revert d.
  induction other as [|[k0 v0] other IH]; intros d Hv; [reflexivity|].
  simpl in *; inversion Hv as [|? ? Hnot Hv']; subst.
  rewrite IH by exact Hv'.
  destruct (str_eqb k0 k) eqn:E.
  - apply str_eqb_eq in E; subst k0.
    rewrite (dict_get_absent other k Hnot), dict_get_set_same; reflexivity.
  - apply str_eqb_neq in E; rewrite dict_get_set_other by exact E.
    reflexivity.
Qed.

Lemma dict_comp_keys (cond : str -> str -> bool) (src : dict) (k : str) :
  In k (map fst (dict_comp cond src)) -> In k (map fst src).
Proof.
  unfold dict_comp; rewrite !in_map_iff.
  intros (kv & E & H); apply filter_In in H; exists kv; tauto.
Qed.

Lemma dict_comp_valid (cond : str -> str -> bool) (src : dict) :
  valid_dict src -> valid_dict (dict_comp cond src).
Proof.
  unfold valid_dict; induction src as [|[k0 v0] src IH]; intros Hv;
    [constructor|].
  simpl in *; inversion Hv as [|? ? Hnot Hv']; subst.
  destruct (cond k0 v0); [|apply IH; exact Hv'].
  simpl; constructor; [|apply IH; exact Hv'].
  intros H; apply Hnot, (dict_comp_keys cond src k0 H).
Qed.

Lemma dict_get_comp (cond : str -> str -> bool) (src : dict) (k : str) :
  valid_dict src ->
  dict_get (dict_comp cond src) k
  = match dict_get src k with
    | Some v => if cond k v then Some v else None
    | None => None
    end.
Proof.
  unfold valid_dict; induction src as [|[k0 v0] src IH]; intros Hv;
    [reflexivity|].
  simpl in *; inversion Hv as [|? ? Hnot Hv']; subst.
  destruct (str_eqb k0 k) eqn:E.
  - apply str_eqb_eq in E; subst k0.
    destruct (cond k v0); simpl; [rewrite str_eqb_refl; reflexivity|].
    apply dict_get_absent; intros H; apply Hnot.
    apply (dict_comp_keys cond src k H).
  - destruct (cond k0 v0); simpl; [rewrite E|]; apply IH; exact Hv'.
Qed.

Lemma dict_set_keys (d : dict) (k v : str) :
  map fst (dict_set d k v)
  = if dict_mem d k then map fst d else map fst d ++ [k].
Proof.
  unfold dict_mem; induction d as [|[k' v'] d IH]; simpl; [reflexivity|].
  destruct (str_eqb k' k) eqn:E; simpl; [reflexivity|].
  rewrite IH; destruct (dict_get d k); reflexivity.
Qed.

Lemma dict_set_valid (d : dict) (k v : str) :
  valid_dict d -> valid_dict (dict_set d k v).
Proof.
  unfold valid_dict; rewrite dict_set_keys; unfold dict_mem; intros Hv.
  destruct (dict_get d k) eqn:E; [exact Hv|].
  apply NoDup_app; repeat split; [exact Hv | repeat constructor; auto|].
  intros x Hx [<- | []].
  apply in_map_iff in Hx; destruct Hx as ([k1 v1] & <- & Hin); simpl in *.
  assert (H : dict_get d k1 <> None); [|congruence].
  clear E; induction d as [|[k2 v2] d IH]; [destruct Hin|]; simpl.
  destruct (str_eqb k2 k1) eqn:E2; [discriminate|].
  destruct Hin as [Hin | Hin];
    [injection Hin as -> ->; rewrite str_eqb_refl in E2; discriminate|].
  inversion Hv; subst; apply IH; assumption.
Qed.

Lemma dict_update_valid (d other : dict) :
  valid_dict d -> valid_dict (dict_update d other).
Proof.
  unfold dict_update; revert d; induction other as [|kv other IH];
    intros d Hv; [exact Hv|].
  simpl; apply IH, dict_set_valid; exact Hv.
Qed.

(** What one of the filling steps leaves at a key. *)
Lemma dict_get_fill_missing (result src : dict) (k : str) :
  valid_dict src ->
  dict_get (fill_missing result src) k
  = or_else (dict_get result k) (pick src k).
Proof.
  intros Hv; unfold fill_missing.
  rewrite dict_get_update by (apply dict_comp_valid; exact Hv).
  rewrite dict_get_comp by exact Hv; unfold pick, dict_mem.
  destruct (dict_get result k) as [r|]; simpl.
  - destruct (dict_get src k) as [v|]; [|reflexivity].
    rewrite andb_false_r; reflexivity.
  - destruct (dict_get src k) as [v|]; [|reflexivity].
    rewrite andb_true_r; destruct (truthy v); reflexivity.
Qed.

Lemma dict_get_defaults (ks : list str) (r : dict) (k : str) :
  dict_get
    (fold_left (fun r k => if negb (dict_mem r k) then dict_set r k [] else r)
       ks r) k
  = or_else (dict_get r k)
      (if existsb (str_eqb k) ks then Some [] else None).
Proof.
  revert r; induction ks as [|k0 ks IH]; intros r; simpl;
    [rewrite or_else_none; reflexivity|].
  rewrite IH; unfold dict_mem.
  destruct (str_eqb k k0) eqn:E.
  - apply str_eqb_eq in E; subst k0; simpl.
    destruct (dict_get r k) eqn:Er; simpl; [rewrite Er; reflexivity|].
    rewrite dict_get_set_same; reflexivity.
  - apply str_eqb_neq in E; simpl.
    destruct (dict_get r k0); simpl; [reflexivity|].
    rewrite dict_get_set_other by congruence; reflexivity.
Qed.

Lemma defaults_valid (ks : list str) (r : dict) :
  valid_dict r ->
  valid_dict
    (fold_left (fun r k => if negb (dict_mem r k) then dict_set r k [] else r)
       ks r).
Proof.
  revert r; induction ks as [|k0 ks IH]; intros r Hv; [exact Hv|].
  simpl; apply IH; destruct (negb _); [apply dict_set_valid|]; exact Hv.
Qed.

(** The result after the Crossref and arXiv steps. *)
Lemma dict_get_crossref (crossref_info : dict) (k : str) :
  valid_dict crossref_info ->
  dict_get
    (if negb (Nat.eqb (length crossref_info) 0)
     then dict_update [] (dict_comp (fun _ v => truthy v) crossref_info)
     else []) k
  = pick crossref_info k.
Proof.
  intros Hv; destruct crossref_info as [|kv d]; [reflexivity|].
  cbn [length Nat.eqb negb].
  rewrite dict_get_update by (apply dict_comp_valid; exact Hv).
  rewrite dict_get_comp by exact Hv; unfold pick.
  destruct (dict_get (kv :: d) k) as [v|]; [|reflexivity].
  destruct (truthy v); reflexivity.
Qed.

Lemma pick_truthy (d : dict) (k v : str) : pick d k = Some v -> truthy v = true.
Proof.
  unfold pick; destruct (dict_get d k) as [w|]; [|discriminate].
  destruct (truthy w) eqn:E; [|discriminate].
  intros H; injection H as <-; exact E.
Qed.

Lemma get_complete_metadata_get
  (crossref_info arxiv_info bibtex_meta meta candidates : dict) (k : str) :
  valid_dict crossref_info -> valid_dict arxiv_info ->
  valid_dict bibtex_meta -> valid_dict meta -> valid_dict candidates ->
  dict_get
    (get_complete_metadata crossref_info arxiv_info bibtex_meta meta
       candidates) k
  = or_else (pick crossref_info k)
      (or_else
         (match pick crossref_info (str_of "title") with
          | Some _ => None
          | None => pick arxiv_info k
          end)
         (or_else (pick bibtex_meta k)
            (or_else (pick meta k)
               (or_else (pick candidates k)
                  (if existsb (str_eqb k) FIELDS then Some [] else None))))).
Proof.
  intros Hc Ha Hb Hm Hd; unfold get_complete_metadata; cbv zeta.
  rewrite dict_get_defaults, !dict_get_fill_missing by assumption.
  set (r1 := if negb (Nat.eqb (length crossref_info) 0) then _ else _).
  assert (H1 : forall x, dict_get r1 x = pick crossref_info x)
    by (intros x; apply dict_get_crossref; exact Hc).
  assert (H2 : dict_get
                 (if negb (Nat.eqb (length arxiv_info) 0)
                     && get_is_falsy r1 (str_of "title")
                  then fill_missing r1 arxiv_info else r1) k
               = or_else (pick crossref_info k)
                   (match pick crossref_info (str_of "title") with
                    | Some _ => None
                    | None => pick arxiv_info k
                    end)).
  { unfold get_is_falsy; rewrite H1.
    destruct (pick crossref_info (str_of "title")) as [t|] eqn:Et.
    - rewrite (pick_truthy _ _ _ Et), andb_false_r, H1, or_else_none.
      reflexivity.
    - rewrite andb_true_r; destruct arxiv_info as [|kv a].
      + cbn [length Nat.eqb negb]; rewrite H1, or_else_none; reflexivity.
      + cbn [length Nat.eqb negb].
        rewrite dict_get_fill_missing, H1 by exact Ha; reflexivity. }
  rewrite H2.
  destruct (pick crossref_info k); [reflexivity|]; simpl.
  destruct (match pick crossref_info (str_of "title") with
            | Some _ => None | None => pick arxiv_info k end);
    [reflexivity|]; simpl.
  destruct (pick bibtex_meta k); [reflexivity|]; simpl.
  destruct (pick meta k); [reflexivity|]; simpl.
  reflexivity.
Qed.

(** X14: whatever was looked up, each of the eleven fields is a key of
    the result, and no key is there twice. *)
Theorem metadata_has_every_field :
  forall (crossref_info arxiv_info bibtex_meta meta candidates : dict)
         (k : str),
    In k FIELDS ->
    dict_mem
      (get_complete_metadata crossref_info arxiv_info bibtex_meta meta
         candidates) k = true /\
    valid_dict
      (get_complete_metadata crossref_info arxiv_info bibtex_meta meta
         candidates).
Proof.
  intros c a b m d k Hk; unfold get_complete_metadata; cbv zeta; split.
  - unfold dict_mem; rewrite dict_get_defaults.
    assert (E : existsb (str_eqb k) FIELDS = true)
      by (apply existsb_exists; exists k; split;
          [exact Hk | apply str_eqb_refl]).
    rewrite E; destruct (dict_get _ k); reflexivity.
  - apply defaults_valid; unfold fill_missing.
    repeat apply dict_update_valid.
    destruct (_ && _); [apply dict_update_valid|];
      (destruct (negb _); [apply dict_update_valid|]; constructor).
Qed.

Lemma metadata_has_every_field_witness :
  dict_mem (get_complete_metadata [] [] [] [] []) (str_of "doi") = true.
Proof.
  refine (proj1 (metadata_has_every_field [] [] [] [] [] (str_of "doi") _)).
  vm_compute; tauto.
Defined.

(** X15: the value of a key is the first that is there and not empty
    among Crossref, arXiv (consulted only when Crossref gave no title),
    BibTeX, the PDF metadata and the candidates read off the text; when
    none has it, the empty text for the eleven fields and nothing for any
    other key. *)
Theorem metadata_precedence :
  forall (crossref_info arxiv_info bibtex_meta meta candidates : dict)
         (k : str),
    valid_dict crossref_info -> valid_dict arxiv_info ->
    valid_dict bibtex_meta -> valid_dict meta -> valid_dict candidates ->
    dict_get
      (get_complete_metadata crossref_info arxiv_info bibtex_meta meta
         candidates) k
    = or_else (pick crossref_info k)
        (or_else
           (match pick crossref_info (str_of "title") with
            | Some _ => None
            | None => pick arxiv_info k
            end)
           (or_else (pick bibtex_meta k)
              (or_else (pick meta k)
                 (or_else (pick candidates k)
                    (if existsb (str_eqb k) FIELDS then Some []
                     else None))))).
Proof. exact get_complete_metadata_get. Qed.

Lemma metadata_precedence_witness :
  dict_get
    (get_complete_metadata
       [(str_of "title", str_of "From Crossref"); (str_of "year", [])]
       [(str_of "arxiv_id", str_of "2101.00001")]
       [(str_of "year", str_of "2021")] [] [])
    (str_of "year")
  = Some (str_of "2021").
Proof.
  refine (metadata_precedence
       [(str_of "title", str_of "From Crossref"); (str_of "year", [])]
       [(str_of "arxiv_id", str_of "2101.00001")]
       [(str_of "year", str_of "2021")] [] [] (str_of "year") _ _ _ _ _);
    unfold valid_dict; simpl; repeat constructor; simpl;
    try tauto; intros [H | []]; discriminate.
Defined.

(** X16: when Crossref gives a title, what arXiv returned changes
    nothing: the result is the same whatever it is. *)
Theorem metadata_ignores_arxiv_after_crossref_title :
  forall (crossref_info arxiv_info arxiv_info' bibtex_meta meta
            candidates : dict),
    valid_dict crossref_info ->
    pick crossref_info (str_of "title") <> None ->
    get_complete_metadata crossref_info arxiv_info bibtex_meta meta candidates
    = get_complete_metadata crossref_info arxiv_info' bibtex_meta meta
        candidates.
Proof.
  intros c a a' b m d Hv Ht; unfold get_complete_metadata; cbv zeta.
  set (r1 := if negb (Nat.eqb (length c) 0) then _ else _).
  assert (E : get_is_falsy r1 (str_of "title") = false).
  { unfold get_is_falsy, r1; rewrite dict_get_crossref by exact Hv.
    destruct (pick c (str_of "title")) as [t|] eqn:Et; [|congruence].
    rewrite (pick_truthy _ _ _ Et); reflexivity. }
  rewrite E, !andb_false_r; reflexivity.
Qed.

Lemma metadata_ignores_arxiv_witness :
  get_complete_metadata [(str_of "title", str_of "T")]
    [(str_of "arxiv_id", str_of "2101.00001")] [] [] []
  = get_complete_metadata [(str_of "title", str_of "T")] [] [] [] [].
Proof.
  apply (metadata_ignores_arxiv_after_crossref_title
           [(str_of "title", str_of "T")]
           [(str_of "arxiv_id", str_of "2101.00001")] [] [] [] []).
  - unfold valid_dict; simpl; repeat constructor; simpl; tauto.
  - vm_compute; discriminate.
Defined.

(** ** [parse_soc_matrix] and [parse_s1_soc_matrix] *)

Section SocMatrixFacts.

Variable float : Type.
Variable re_match_row : str -> option soc_groups.
Variable int_of : str -> option Z.
Variable float_of : str -> option float.

Abbreviation step_all := (soc_step float re_match_row int_of float_of).
Abbreviation step_s1 := (s1_step float re_match_row int_of float_of).
Abbreviation is_s1 := (fun r : soc_row float => (row_s r =? 1)%Z).

Lemma soc_fold_raised (lines : list str) : fold_left step_all lines None = None.
Proof. induction lines; simpl; auto. Qed.

Lemma s1_fold_raised (lines : list str) : fold_left step_s1 lines None = None.
Proof. induction lines; simpl; auto. Qed.

Lemma row_of_s (t s : Z) (m : soc_groups) (r : soc_row float) :
  row_of float float_of t s m = Some r -> row_s r = s.
Proof.
  unfold row_of; repeat (destruct (complex_of _ _ _ _); [|discriminate]).
  intros H; injection H as <-; reflexivity.
Qed.

Lemma s1_fold_of_soc_fold (lines : list str) (acc rows : list (soc_row float)) :
  fold_left step_all lines (Some acc) = Some rows ->
  fold_left step_s1 lines (Some (filter is_s1 acc))
  = Some (filter is_s1 rows).
Proof.
  revert acc; induction lines as [|line lines IH]; intros acc; simpl.
  - intros H; injection H as <-; reflexivity.
  - destruct (re_match_row line) as [m|]; [|apply IH].
    destruct (int_of (group1 m)) as [t|];
      [|rewrite soc_fold_raised; discriminate].
    destruct (int_of (group2 m)) as [s|];
      [|rewrite soc_fold_raised; discriminate].
    destruct (row_of float float_of t s m) as [r|] eqn:Er;
      [|rewrite soc_fold_raised; discriminate].
    intros H; apply IH in H; rewrite filter_app in H; simpl in H.
    rewrite (row_of_s _ _ _ _ Er) in H.
    destruct (s =? 1)%Z; [exact H|].
    rewrite app_nil_r in H; exact H.
Qed.

Lemma s1_fold_rows (lines : list str) (acc rows : list (soc_row float)) :
  Forall (fun r => row_s r = 1%Z) acc ->
  fold_left step_s1 lines (Some acc) = Some rows ->
  Forall (fun r => row_s r = 1%Z) rows.
Proof.
  revert acc; induction lines as [|line lines IH]; intros acc Hacc; simpl.
  - intros H; injection H as <-; exact Hacc.
  - destruct (re_match_row line) as [m|]; [|apply IH; exact Hacc].
    destruct (int_of (group1 m)) as [t|];
      [|rewrite s1_fold_raised; discriminate].
    destruct (int_of (group2 m)) as [s|];
      [|rewrite s1_fold_raised; discriminate].
    destruct (s =? 1)%Z eqn:Es; [|apply IH; exact Hacc].
    destruct (row_of float float_of t s m) as [r|] eqn:Er;
      [|rewrite s1_fold_raised; discriminate].
    apply IH, Forall_app; split; [exact Hacc|].
    repeat constructor; rewrite (row_of_s _ _ _ _ Er).
    apply Z.eqb_eq; exact Es.
Qed.

End SocMatrixFacts.

(** X17: when [parse_soc_matrix] returns, [parse_s1_soc_matrix] returns
    on the same text the rows of it whose singlet is 1, in the same order;
    and every row [parse_s1_soc_matrix] returns has singlet 1. *)
Theorem parse_s1_keeps_singlet_one :
  forall (float : Type) (re_match_row : str -> option soc_groups)
         (int_of : str -> option Z) (float_of : str -> option float)
         (text : str),
    (forall rows,
       parse_soc_matrix float re_match_row int_of float_of text = Some rows ->
       parse_s1_soc_matrix float re_match_row int_of float_of text
       = Some (filter (fun r => (row_s r =? 1)%Z) rows)) /\
    (forall rows,
       parse_s1_soc_matrix float re_match_row int_of float_of text = Some rows ->
       Forall (fun r => row_s r = 1%Z) rows).
Proof.
  intros float re_match_row int_of float_of text; split; intros rows H.
  - apply (s1_fold_of_soc_fold float re_match_row int_of float_of
             (split_lines (strip text)) [] rows H).
  - apply (s1_fold_rows float re_match_row int_of float_of
             (split_lines (strip text)) [] rows); [constructor | exact H].
Qed.

(** The theorem at a matcher that reads a number off the length of each
    line: of the rows of lengths 1 and 2, the first is kept. *)
Lemma parse_s1_witness :
  parse_s1_soc_matrix nat
    (fun line => Some {| group1 := line; group2 := line; group3 := line;
                         group4 := line; group5 := line; group6 := line;
                         group7 := line; group8 := line |})
    (fun s => Some (Z.of_nat (length s))) (fun s => Some (length s))
    (str_of "a" ++ [NL] ++ str_of "bb")
  = Some [(1%Z, 1%Z, (1, 1), (1, 1), (1, 1))].
Proof.
  refine (proj1 (parse_s1_keeps_singlet_one nat
            (fun line => Some {| group1 := line; group2 := line;
                                 group3 := line; group4 := line;
                                 group5 := line; group6 := line;
                                 group7 := line; group8 := line |})
            (fun s => Some (Z.of_nat (length s))) (fun s => Some (length s))
            (str_of "a" ++ [NL] ++ str_of "bb"))
            [(1%Z, 1%Z, (1, 1), (1, 1), (1, 1));
             (2%Z, 2%Z, (2, 2), (2, 2), (2, 2))] _).
  vm_compute; reflexivity.
Defined.

(** ** [pdf_to_text] and the pipeline *)

Lemma pdf_to_text_blank (page_texts : list str) (text : str) :
  forallb isspace text = true ->
  Forall (fun page => forallb isspace page = true) page_texts ->
  forallb isspace
    (fold_left (fun text page => text ++ page ++ [NL]) page_texts text)
  = true.
Proof.
  revert text; induction page_texts as [|page l IH]; intros text Ht Hp;
    [exact Ht|].
  inversion Hp as [|? ? Hpage Hl]; subst; simpl; apply IH; [|exact Hl].
  rewrite !forallb_app, Ht, Hpage; reflexivity.
Qed.

(** X18: a PDF that cannot be read, or whose pages hold white space
    only (a scan without a text layer), gives the empty text, and the
    model is called on nothing. *)
Theorem unreadable_or_blank_pdf_gives_nothing :
  forall (llm : str -> option str) (count : str -> nat) (max_tokens : Z),
    extract_text_from_pdf_log llm count (pdf_to_text None) max_tokens
    = ([], []) /\
    (forall page_texts : list str,
       Forall (fun page => forallb isspace page = true) page_texts ->
       extract_text_from_pdf_log llm count (pdf_to_text (Some page_texts))
         max_tokens = ([], [])).
Proof.
  intros llm count max_tokens; split; [reflexivity|].
  intros page_texts H; rewrite extract_text_from_pdf_log_eq.
  rewrite (split_text_blank count max_tokens); [reflexivity|].
  apply remove_references_blank, pdf_to_text_blank; [reflexivity | exact H].
Qed.

Lemma unreadable_or_blank_pdf_witness :
  extract_text_from_pdf_log (fun c => Some c) (@length char)
    (pdf_to_text (Some [str_of " "; []])) 5 = ([], []).
Proof.
  refine (proj2 (unreadable_or_blank_pdf_gives_nothing (fun c => Some c)
                   (@length char) 5) [str_of " "; []] _).
  repeat constructor.
Defined.
